(** * Price-table extraction (tools/docling-api/price_table_extraction.py)

    A shallow embedding of [extract_price_tables_from_text] and of its
    nested helpers, and the properties of the extraction core.

    Python values are modelled as follows.
    - A [str] is the list of its Unicode code points.
    - The Unicode Character Database consulted through [unicodedata],
      [str.lower], [str.strip], [float] and the [re] classes [\s] and [\d]
      is a parameter ([UnicodeData]); general statements hold for every
      database, concrete runs use the Latin fragment [ucd].
    - A [dict] is a [gmap] keyed by strings.
    - A [float] is the exact rational its numeral denotes (see [pyfloat]). *)

From Stdlib Require Import ZArith NArith QArith Strings.String Strings.Ascii Lia.
From stdpp Require Import base option list gmap.

Set Default Proof Using "Type".
#[local] Set Warnings "-clear-no-such-hyp".

(** ** Strings *)

Definition char := N.
Definition str := list char.

(** An ASCII literal as a [str]. *)
Definition lit (s : string) : str :=
  List.map N_of_ascii (list_ascii_of_string s).
Arguments lit s%_string.

Definition LF : char := 0x0A%N.
Definition CR : char := 0x0D%N.
Definition TAB : char := 0x09%N.
Definition SP : char := 0x20%N.
Definition BAR : char := 0x7C%N.      (* | *)
Definition HASH : char := 0x23%N.     (* # *)
Definition DOT : char := 0x2E%N.
Definition COMMA : char := 0x2C%N.
Definition HYPHEN : char := 0x2D%N.   (* - *)
Definition ENDASH : char := 0x2013%N.
Definition EMDASH : char := 0x2014%N.
Definition EURO : char := 0x20AC%N.

(** [s.startswith(p)] *)
Fixpoint starts_with (p s : str) : bool :=
  match p, s with
  | [], _ => true
  | _ :: _, [] => false
  | a :: p', b :: s' => bool_decide (a = b) && starts_with p' s'
  end.

(** [p in s] for strings: [p] occurs as a contiguous block of [s]. *)
Fixpoint contains (p s : str) : bool :=
  starts_with p s ||
  match s with
  | [] => false
  | _ :: s' => contains p s'
  end.

(** [s.replace(old, new)] for a non-empty [old], as at every call site:
    occurrences are replaced from the left and do not overlap.  [skip]
    counts the characters of a replaced occurrence still to be dropped. *)
Fixpoint replace_go (old new : str) (skip : nat) (s : str) : str :=
  match s with
  | [] => []
  | c :: s' =>
      match skip with
      | S k => replace_go old new k s'
      | O => if starts_with old s
             then new ++ replace_go old new (length old - 1) s'
             else c :: replace_go old new 0 s'
      end
  end.

Definition replace (old new s : str) : str := replace_go old new 0 s.

(** [s.split(sep)] for a one-character separator; never the empty list. *)
Fixpoint split_on (sep : char) (s : str) : list str :=
  match s with
  | [] => [[]]
  | c :: s' =>
      if bool_decide (c = sep) then [] :: split_on sep s'
      else match split_on sep s' with
           | [] => [[c]]
           | w :: ws => (c :: w) :: ws
           end
  end.

(** [s.strip(chars)]: drop from both ends the characters satisfying [p]. *)
Fixpoint lstrip_by (p : char -> bool) (s : str) : str :=
  match s with
  | [] => []
  | c :: s' => if p c then lstrip_by p s' else s
  end.

Definition rstrip_by (p : char -> bool) (s : str) : str :=
  reverse (lstrip_by p (reverse s)).

Definition strip_by (p : char -> bool) (s : str) : str :=
  rstrip_by p (lstrip_by p s).

(** [re.sub(r"[ \t]+", " ", s)]: every maximal run of spaces and tabs
    becomes one space.  [in_run] tells that the previous character was part
    of a run already replaced. *)
Definition is_blank (c : char) : bool :=
  bool_decide (c = SP) || bool_decide (c = TAB).

Fixpoint collapse_go (in_run : bool) (s : str) : str :=
  match s with
  | [] => []
  | c :: s' =>
      if is_blank c
      then (if in_run then collapse_go true s' else SP :: collapse_go true s')
      else c :: collapse_go false s'
  end.

Definition collapse_blanks (s : str) : str := collapse_go false s.

(** ** The Unicode database *)

Record UnicodeData := {
  (** [unicodedata.normalize('NFKD', s)] *)
  nfkd : str -> str;
  (** [unicodedata.combining(ch)], the canonical combining class *)
  combining : char -> N;
  (** [s.lower()] *)
  lower : str -> str;
  (** [ch.isspace()]: what [str.strip()], [float] and [\s] take as space *)
  isspace : char -> bool;
  (** the value of a decimal digit (category Nd): [\d] and [float] *)
  decimal : char -> option N
}.

Section Normalizer.
Variable U : UnicodeData.

(** [strip_accents], lines 21-26 (the argument is always a [str]). *)
Definition strip_accents (s : str) : str :=
  filter (λ ch, combining U ch = 0%N) (nfkd U s).

(** [normalize_text], lines 28-39. *)
Definition normalize_text (s : str) : str :=
  let s := lower U (strip_accents s) in
  let s := replace [CR] [LF] (replace [CR; LF] [LF] s) in
  let s := replace (lit "c" ++ EURO :: lit " /") (lit "c" ++ EURO :: lit "/")
             (replace (EURO :: lit " /") (EURO :: lit "/") s) in
  let s := replace (lit "kwh") (lit "kwh") (replace (lit "k w") (lit "kw") s) in
  collapse_blanks s.

(** [s.strip()] *)
Definition strip (s : str) : str := strip_by (isspace U) s.
End Normalizer.

(** ** Regular expressions

    The patterns of the program are flat: a sequence of single characters
    or classes ([\s], [\d]), each taken once or under [?], [??], [*] or [+],
    with an optional leading [^].  The matcher backtracks in the order of
    Python's [re]: greedy operators try the longest repetition first, the
    lazy [??] tries the empty one first. *)

Inductive cls := Ch (c : char) | Space | Digit.
Inductive quant := One | Opt | OptLazy | Star | Plus.
Record item := Item { it_cls : cls; it_quant : quant }.
Record regex := Regex { bol : bool; items : list item }.

(** A literal piece of a pattern. *)
Definition L (s : string) : list item := (λ c, Item (Ch c) One) <$> lit s.
Arguments L s%_string.

Section Regex.
Variable U : UnicodeData.

Definition cls_match (k : cls) (c : char) : bool :=
  match k with
  | Ch a => bool_decide (c = a)
  | Space => isspace U c
  | Digit => bool_decide (is_Some (decimal U c))
  end.

(** One character of class [p], then the continuation [k]. *)
Definition match_one (p : char -> bool) (k : str -> option nat) (s : str)
  : option nat :=
  match s with
  | c :: s' => if p c then S <$> k s' else None
  | [] => None
  end.

(** As many characters of class [p] as the continuation [k] allows,
    the longest run first. *)
Fixpoint match_star (p : char -> bool) (k : str -> option nat) (s : str)
  : option nat :=
  match s with
  | c :: s' =>
      if p c then
        match match_star p k s' with
        | Some n => Some (S n)
        | None => k s
        end
      else k s
  | [] => k s
  end.

(** [match_here r s]: the length of the match of [r] at the start of [s]
    that a backtracking matcher finds first. *)
Fixpoint match_here (r : list item) (s : str) : option nat :=
  match r with
  | [] => Some 0
  | Item k q :: r' =>
      let p := cls_match k in
      match q with
      | One => match_one p (match_here r') s
      | Opt => match match_one p (match_here r') s with
               | Some n => Some n
               | None => match_here r' s
               end
      | OptLazy => match match_here r' s with
                   | Some n => Some n
                   | None => match_one p (match_here r') s
                   end
      | Star => match_star p (match_here r') s
      | Plus => match_one p (match_star p (match_here r')) s
      end
  end.

(** The leftmost match at or after offset [i] of the text of which [s]
    is the part from [i] on: its start and end offsets. *)
Fixpoint search_go (r : list item) (i : nat) (s : str) : option (nat * nat) :=
  match match_here r s with
  | Some n => Some (i, i + n)
  | None => match s with
            | [] => None
            | _ :: s' => search_go r (S i) s'
            end
  end.

(** [rx.search(s, pos)]; [^] matches at the real start of [s] only. *)
Definition search_from (rx : regex) (s : str) (pos : nat) : option (nat * nat) :=
  if bol rx then
    if bool_decide (pos = 0) then (λ n, (0, n)) <$> match_here (items rx) s
    else None
  else search_go (items rx) pos (drop pos s).

(** [rx.search(s)] *)
Definition search (rx : regex) (s : str) : option (nat * nat) :=
  search_from rx s 0.

(** [rx.finditer(s)] for a pattern without [^]: the successive matches,
    each search resuming where the previous match ended. *)
Fixpoint finditer_go (r : list item) (i skip : nat) (s : str)
  : list (nat * nat) :=
  match skip, s with
  | S k, _ :: s' => finditer_go r (S i) k s'
  | S _, [] => []
  | O, _ =>
      match match_here r s with
      | Some n =>
          (i, i + n) :: match s with
                        | [] => []
                        | _ :: s' => finditer_go r (S i) (n - 1) s'
                        end
      | None => match s with
                | [] => []
                | _ :: s' => finditer_go r (S i) 0 s'
                end
      end
  end.

Definition finditer (rx : regex) (s : str) : list (nat * nat) :=
  finditer_go (items rx) 0 0 s.

(** [re.split(r'\s{2,}', s)]: the separators are the maximal runs of two
    or more spaces. *)
Fixpoint space_run (s : str) : nat :=
  match s with
  | c :: s' => if isspace U c then S (space_run s') else 0
  | [] => 0
  end.

Fixpoint resplit_go (skip : nat) (s : str) : list str :=
  match s with
  | [] => [[]]
  | c :: s' =>
      match skip with
      | S k => resplit_go k s'
      | O =>
          if bool_decide (2 ≤ space_run s)
          then [] :: resplit_go (space_run s - 1) s'
          else match resplit_go 0 s' with
               | [] => [[c]]
               | w :: ws => (c :: w) :: ws
               end
      end
  end.

Definition split_spaces (s : str) : list str := resplit_go 0 s.
End Regex.

(** ** Cell values *)

(** A Python [float] obtained from a numeral.  [FNum q] stands for the
    binary64 value nearest to the rational [q] that the numeral denotes
    (kept in lowest terms), so equal numerals' values are equal floats. *)
Inductive pyfloat := FNum (q : Q) | FInf (neg : bool) | FNan.

(** A cell: [None], a [float] or a [str]. *)
Inductive cell := CNone | CFloat (f : pyfloat) | CStr (s : str).

Global Instance Q_eq_dec : EqDecision Q.
Proof. solve_decision. Defined.
Global Instance pyfloat_eq_dec : EqDecision pyfloat.
Proof. solve_decision. Defined.
Global Instance cell_eq_dec : EqDecision cell.
Proof. solve_decision. Defined.

Definition UNDERSCORE : char := 0x5F%N.
Definition PLUS : char := 0x2B%N.

Definition ascii_lower (c : char) : char :=
  if bool_decide (0x41 ≤ c ≤ 0x5A)%N then (c + 32)%N else c.

Section CellNormalizer.
Variable U : UnicodeData.

(** The rest of a [digitpart] of the grammar of [float]: digits, with
    single underscores allowed between two digits.  [m] is the value of
    the digits read so far and [n] their number. *)
Fixpoint digits_go (m : Z) (n : nat) (s : str) : Z * nat * str :=
  match s with
  | c :: s' =>
      match decimal U c with
      | Some d => digits_go (10 * m + Z.of_N d) (S n) s'
      | None =>
          if bool_decide (c = UNDERSCORE) then
            match s' with
            | c2 :: s'' =>
                match decimal U c2 with
                | Some d => digits_go (10 * m + Z.of_N d) (S n) s''
                | None => (m, n, s)
                end
            | [] => (m, n, s)
            end
          else (m, n, s)
      end
  | [] => (m, n, s)
  end.

(** A [digitpart]: at least one digit. *)
Definition digitpart (s : str) : option (Z * nat * str) :=
  match s with
  | c :: s' =>
      match decimal U c with
      | Some d => Some (digits_go (Z.of_N d) 1 s')
      | None => None
      end
  | [] => None
  end.

(** [sign]: an optional [+] or [-]; [true] for [-]. *)
Definition parse_sign (s : str) : bool * str :=
  match s with
  | c :: s' =>
      if bool_decide (c = PLUS) then (false, s')
      else if bool_decide (c = HYPHEN) then (true, s')
      else (false, s)
  | [] => (false, s)
  end.

(** [exponent]: [e] or [E], an optional sign and a [digitpart]; without
    one the exponent is [0] and nothing is consumed. *)
Definition parse_exponent (s : str) : Z * str :=
  match s with
  | c :: s' =>
      if bool_decide (ascii_lower c = 0x65%N) then
        let '(neg, s'') := parse_sign s' in
        match digitpart s'' with
        | Some (e, _, r) => (if neg then (- e)%Z else e, r)
        | None => (0%Z, s)
        end
      else (0%Z, s)
  | [] => (0%Z, s)
  end.

(** [number]: [digitpart] with an optional point and fraction, or a point
    and a fraction: the digits without the point, and the number of
    digits after it. *)
Definition parse_number (s : str) : option (Z * nat * str) :=
  match digitpart s with
  | Some (m, _, r) =>
      match r with
      | c :: r' =>
          if bool_decide (c = DOT) then
            match digitpart r' with
            | Some (_, _, _) => Some (digits_go m 0 r')
            | None => Some (m, 0, r')
            end
          else Some (m, 0, r)
      | [] => Some (m, 0, r)
      end
  | None =>
      match s with
      | c :: r' =>
          if bool_decide (c = DOT) then
            match digitpart r' with
            | Some (_, _, _) => Some (digits_go 0 0 r')
            | None => None
            end
          else None
      | [] => None
      end
  end.

(** [float(s)]: [None] where Python raises [ValueError]. *)
Definition float_of_str (s : str) : option pyfloat :=
  let '(neg, s1) := parse_sign (strip U s) in
  let low := ascii_lower <$> s1 in
  if bool_decide (low = lit "inf" ∨ low = lit "infinity") then Some (FInf neg)
  else if bool_decide (low = lit "nan") then Some FNan
  else
    match parse_number s1 with
    | Some (m, nfrac, r) =>
        match parse_exponent r with
        | (e, []) =>
            let q := (inject_Z m * Qpower (10 # 1) (e - Z.of_nat nfrac))%Q in
            Some (FNum (Qred (if neg then Qopp q else q)))
        | _ => None
        end
    | None => None
    end.

(** [clean_and_convert], lines 41-51 (the argument is always a [str]). *)
Definition clean_and_convert (value : str) : cell :=
  let cleaned_value := strip U (replace [BAR] [] value) in
  if bool_decide (cleaned_value ∈ [[EMDASH]; [HYPHEN]; []]) then CNone
  else
    let standardized_value :=
      replace [COMMA] [DOT] (replace [DOT] [] cleaned_value) in
    match float_of_str standardized_value with
    | Some f => CFloat f
    | None => CStr cleaned_value
    end.
End CellNormalizer.

(** ** Tables *)

(** A columnar table: header name to column, a [dict] of [list]s. *)
Abbreviation columns_t := (gmap str (list cell)).
(** A row of the result: field name to value. *)
Abbreviation row_t := (gmap str cell).

(** The longest column's length, [0] for the empty table:
    [max((len(v) for v in columns.values()), default=0)] and the loop of
    lines 151-156. *)
Definition max_len (columns : columns_t) : nat :=
  max_list (length <$> (map_to_list columns).*2).

Definition dash_chars : str := [HYPHEN; ENDASH; EMDASH].

(** The index of the first element satisfying [p]. *)
Fixpoint first_index {A} (p : A -> bool) (l : list A) : option nat :=
  match l with
  | [] => None
  | a :: l' => if p a then Some 0 else S <$> first_index p l'
  end.

Section Parser.
Variable U : UnicodeData.

(** [all(h in line for h in norm_headers)] *)
Definition has_all (norm_headers : list str) (line : str) : bool :=
  forallb (λ h, contains h line) norm_headers.

(** The loop of lines 88-93 over adjacent lines joined by a space. *)
Fixpoint first_pair_index (norm_headers : list str) (lines : list str)
  : option nat :=
  match lines with
  | a :: (b :: _) as rest =>
      if has_all norm_headers (strip U (a ++ SP :: b)) then Some 0
      else S <$> first_pair_index norm_headers rest
  | _ => None
  end.

(** [header_row_index], lines 81-93; [None] for [-1]. *)
Definition header_row_index (norm_headers : list str) (lines : list str)
  : option nat :=
  match first_index (has_all norm_headers) lines with
  | Some i => Some i
  | None => first_pair_index norm_headers lines
  end.

(** [parts], line 104. *)
Definition line_parts (line : str) : list str :=
  strip U <$>
    filter (λ p, strip U p ≠ [])
      (if contains [BAR] line then split_on BAR line else split_spaces U line).

(** The test of line 107: an empty or a separator line. *)
Definition skip_line (parts : list str) : bool :=
  match parts with
  | [] => true
  | p0 :: _ => forallb (λ c, bool_decide (c ∈ dash_chars)) p0
  end.

(** Lines 111-115: one value is appended to the column of every header,
    [idx] being the position of the first of [headers]. *)
Fixpoint append_row (parts : list str) (idx : nat) (headers : list str)
    (columns : columns_t) : columns_t :=
  match headers with
  | [] => columns
  | header :: rest =>
      let v := match parts !! idx with
               | Some p => clean_and_convert U p
               | None => CNone
               end in
      append_row parts (S idx) rest (alter (λ col, col ++ [v]) header columns)
  end.

(** The body of the loop of lines 102-115. *)
Definition process_line (headers : list str) (columns : columns_t)
    (line : str) : columns_t :=
  let parts := line_parts line in
  if skip_line parts then columns else append_row parts 0 headers columns.

(** Lines 117-121. *)
Definition pad_columns (headers : list str) (columns : columns_t)
  : columns_t :=
  if bool_decide (columns = ∅) then columns
  else
    let n := max_len columns in
    foldl (λ cols header,
             alter (λ col, col ++ replicate (n - length col) CNone) header cols)
          columns headers.

(** [parse_table_to_columns], lines 53-127.  No operation of the body
    raises on strings, so the handler of lines 125-127 is never entered;
    [orig_text] is not read. *)
Definition parse_table_to_columns (orig_text norm_text : str)
    (headers : list str) (start_pattern : regex)
    (end_pattern : option regex) : columns_t :=
  match search U start_pattern norm_text with
  | None => ∅
  | Some (start_idx, _) =>
      let end_m :=
        match end_pattern with
        | Some rx => search_from U rx norm_text start_idx
        | None => None
        end in
      let table_block :=
        match end_m with
        | Some (end_idx, _) =>
            take (end_idx - start_idx) (drop start_idx norm_text)
        | None => drop start_idx norm_text
        end in
      let lines := split_on LF (strip U table_block) in
      let norm_headers := normalize_text U <$> headers in
      match header_row_index norm_headers lines with
      | None => ∅
      | Some i =>
          let columns : columns_t :=
            list_to_map ((λ header, (header, [])) <$> headers) in
          let data_lines := drop (i + 1) lines in
          pad_columns headers (foldl (process_line headers) columns data_lines)
      end
  end.
End Parser.

(** ** Reshaping *)

(** [expand_unica_table], lines 129-142. *)
Definition expand_unica_table (table_data : columns_t) : columns_t :=
  match table_data !! lit "P1 - P6" with
  | None => ∅
  | Some price_values =>
      let expanded_table : columns_t := ∅ in
      let expanded_table :=
        match table_data !! lit "TARIFA" with
        | Some col => <[lit "TARIFA" := col]> expanded_table
        | None => expanded_table
        end in
      let expanded_table :=
        match table_data !! lit "POTENCIA CONTRATADA" with
        | Some col => <[lit "POTENCIA CONTRATADA" := col]> expanded_table
        | None => expanded_table
        end in
      foldl (λ t name, <[name := price_values]> t) expanded_table
        [lit "P1"; lit "P2"; lit "P3"; lit "P4"; lit "P5"; lit "P6"]
  end.

(** One field of a row, lines 160-175:
    [columns.get(key, [None] * max_len)[i] if len(columns.get(key, [])) > i
     else None]. *)
Definition field (columns : columns_t) (n : nat) (key : str) (i : nat) : cell :=
  if bool_decide (i < length (default [] (columns !! key)))
  then default CNone (default (replicate n CNone) (columns !! key) !! i)
  else CNone.

(** The [dict] literal of lines 159-176. *)
Definition tariff_row (columns : columns_t) (n i : nat) : row_t :=
  <[lit "P6" := field columns n (lit "P6") i]>
  (<[lit "P5" := field columns n (lit "P5") i]>
  (<[lit "P4" := field columns n (lit "P4") i]>
  (<[lit "P3" := field columns n (lit "P3") i]>
  (<[lit "P2" := field columns n (lit "P2") i]>
  (<[lit "P1" := field columns n (lit "P1") i]>
  (<[lit "potencia_contratada" := field columns n (lit "POTENCIA CONTRATADA") i]>
  (<[lit "tarifa" := field columns n (lit "TARIFA") i]> ∅))))))).

(** [columns_to_tarifas], lines 144-178. *)
Definition columns_to_tarifas (columns : columns_t) : list row_t :=
  if bool_decide (columns = ∅) then []
  else
    let n := max_len columns in
    tariff_row columns n <$> seq 0 n.

(** ** Titles *)

Section TitleResolver.
Variable U : UnicodeData.

(** Lines 191-202 for a line whose normalized form matches. *)
Definition clean_title (rx : regex) (line : str) : option str :=
  let cleaned :=
    strip U (strip_by (λ c, bool_decide (c = BAR))
               (strip_by (λ c, bool_decide (c = HASH)) (strip U line))) in
  let cleaned :=
    if contains [BAR] cleaned then
      let parts :=
        strip U <$> filter (λ p, strip U p ≠ []) (split_on BAR cleaned) in
      match
        filter (λ p, is_Some (search U rx (normalize_text U p))) parts
      with
      | part :: _ => strip U part
      | [] => cleaned
      end
    else cleaned in
  if bool_decide (cleaned = []) then None else Some cleaned.

(** The loop of lines 187-203. *)
Fixpoint title_of_lines (rx : regex) (lines : list str) : option str :=
  match lines with
  | [] => None
  | line :: rest =>
      if bool_decide (is_Some (search U rx (normalize_text U line)))
      then clean_title rx line
      else title_of_lines rx rest
  end.

(** [find_title_line], lines 180-203. *)
Definition find_title_line (orig_text : str) (title_rx_norm : regex)
  : option str :=
  if bool_decide (orig_text = []) then None
  else
    title_of_lines title_rx_norm
      (split_on LF (replace [CR] [LF] (replace [CR; LF] [LF] orig_text))).
End TitleResolver.

(** ** The assembler *)

Record tabla := {
  titulo : str;
  tarifas : list row_t
}.

Record termino_de_potencia_t := {
  potencia_titulo : str;
  tabla_precio_potencia : tabla
}.

Record termino_de_energia_t := {
  energia_titulo : str;
  tabla_precio_clasica_base : tabla;
  tabla_precio_clasica_unica : tabla
}.

(** The [dict] of lines 293-313. *)
Record ExtractionResult := {
  filename : str;
  termino_de_potencia : termino_de_potencia_t;
  termino_de_energia : termino_de_energia_t
}.

Definition potencia_headers : list str :=
  [lit "TARIFA"; lit "POTENCIA CONTRATADA";
   lit "P1"; lit "P2"; lit "P3"; lit "P4"; lit "P5"; lit "P6"].
Definition clasica_base_headers : list str :=
  [lit "TARIFA"; lit "POTENCIA CONTRATADA";
   lit "P1"; lit "P2"; lit "P3"; lit "P4"; lit "P5"; lit "P6"].
Definition unica_headers : list str :=
  [lit "TARIFA"; lit "POTENCIA CONTRATADA"; lit "P1 - P6"].

Definition ws0 : item := Item Space Star.   (* \s* *)
Definition ws1 : item := Item Space Plus.   (* \s+ *)
Definition opt (c : char) : item := Item (Ch c) Opt.
Definition SLASH : char := 0x2F%N.

(** [termino\s+de\s+potencia\s*\(\s*€/?\s*\/??\s*kw\s*y\s*dia\s*\)] *)
Definition potencia_start_rx : regex :=
  Regex false
    (L "termino" ++ ws1 :: L "de" ++ ws1 :: L "potencia" ++ ws0 :: L "(" ++
     ws0 :: Item (Ch EURO) One :: opt SLASH :: ws0 ::
     Item (Ch SLASH) OptLazy :: ws0 :: L "kw" ++ ws0 :: L "y" ++
     ws0 :: L "dia" ++ ws0 :: L ")").

(** [estos\s+precios\s+llevar?n?\s+incluidos] *)
Definition potencia_end_rx : regex :=
  Regex false
    (L "estos" ++ ws1 :: L "precios" ++ ws1 :: L "lleva" ++
     opt 0x72%N :: opt 0x6E%N :: ws1 :: L "incluidos").

(** [precio\s+potencia\s*\(\s*€/?\s*kw\s*y\s*dia\s*\)] *)
Definition potencia_title_rx : regex :=
  Regex false
    (L "precio" ++ ws1 :: L "potencia" ++ ws0 :: L "(" ++
     ws0 :: Item (Ch EURO) One :: opt SLASH :: ws0 :: L "kw" ++
     ws0 :: L "y" ++ ws0 :: L "dia" ++ ws0 :: L ")").

(** [precio\s+clasica\s+base\s+te\s*], the common start of the others. *)
Definition clasica_base_te : list item :=
  L "precio" ++ ws1 :: L "clasica" ++ ws1 :: L "base" ++ ws1 :: L "te" ++ [ws0].

(** [\s*\(\s*c€/?\s*kwh\s*\)], their common end. *)
Definition unit_kwh : list item :=
  ws0 :: L "(" ++ ws0 :: L "c" ++ Item (Ch EURO) One :: opt SLASH ::
  ws0 :: L "kwh" ++ ws0 :: L ")".

(** [precio\s+clasica\s+base\s+te\s*\d\s*\(\s*c€/?\s*kwh\s*\)] *)
Definition clasica_base_start_rx : regex :=
  Regex false (clasica_base_te ++ Item Digit One :: unit_kwh).

(** [precio\s+clasica\s+base\s+te\s*\d\s+unica] *)
Definition clasica_base_end_rx : regex :=
  Regex false (clasica_base_te ++ Item Digit One :: ws1 :: L "unica").

(** [precio\s+clasica\s+base\s+te\s*\d+\s*\(\s*c€/?\s*kwh\s*\)] *)
Definition clasica_base_title_rx : regex :=
  Regex false (clasica_base_te ++ Item Digit Plus :: unit_kwh).

(** [precio\s+clasica\s+base\s+te\s*\d\s+unica\s*\(\s*c€/?\s*kwh\s*\)] *)
Definition unica_start_rx : regex :=
  Regex false (clasica_base_te ++ Item Digit One :: ws1 :: L "unica" ++ unit_kwh).

(** [en\s+caso\s+de\s+no\s+marcar\s+la\s+casilla] *)
Definition unica_end_rx : regex :=
  Regex false
    (L "en" ++ ws1 :: L "caso" ++ ws1 :: L "de" ++ ws1 :: L "no" ++
     ws1 :: L "marcar" ++ ws1 :: L "la" ++ ws1 :: L "casilla").

(** The default titles of lines 285-287, and the fixed ones of lines
    290-303. *)
Definition default_titulo_potencia : str :=
  lit "PRECIO POTENCIA (" ++ EURO :: lit "/kWd" ++ 0xED%N :: lit "a)".
Definition default_titulo_base : str :=
  lit "PRECIO CL" ++ 0xC1%N :: lit "SICA BASE TE3 (c" ++ EURO :: lit "/kWh)".
Definition default_titulo_unica : str :=
  lit "PRECIO CL" ++ 0xC1%N :: lit "SICA BASE TE3 UNICA (c" ++ EURO :: lit "/kWh)".
Definition company_name : str := lit "Total Energies".
Definition titulo_termino_de_potencia : str :=
  lit "T" ++ 0xC9%N :: lit "RMINO DE POTENCIA (" ++ EURO :: lit "/kW y d" ++
  0xED%N :: lit "a)".
Definition titulo_termino_de_energia : str :=
  lit "T" ++ 0xC9%N :: lit "RMINO DE ENERG" ++ 0xCD%N :: lit "A (c" ++
  EURO :: lit "/kWh)".

Section Assembler.
Variable U : UnicodeData.

(** Lines 270-280: the columns of the UNICA table, parsed from the last
    match of its start marker on. *)
Definition unica_data_raw (text norm : str) : columns_t :=
  match last (finditer U unica_start_rx norm) with
  | Some (start, _) =>
      parse_table_to_columns U text (drop start norm) unica_headers
        (Regex true (items unica_start_rx)) (Some unica_end_rx)
  | None => ∅
  end.

(** [extract_price_tables_from_text], lines 247-315. *)
Definition extract_price_tables_from_text (text : str) : ExtractionResult :=
  let norm := normalize_text U text in
  let potencia_data :=
    parse_table_to_columns U text norm potencia_headers
      potencia_start_rx (Some potencia_end_rx) in
  let clasica_base_data :=
    parse_table_to_columns U text norm clasica_base_headers
      clasica_base_start_rx (Some clasica_base_end_rx) in
  let unica_data_expanded := expand_unica_table (unica_data_raw text norm) in
  let titulo_potencia :=
    default default_titulo_potencia (find_title_line U text potencia_title_rx) in
  let titulo_base :=
    default default_titulo_base (find_title_line U text clasica_base_title_rx) in
  let titulo_unica :=
    default default_titulo_unica (find_title_line U text unica_start_rx) in
  {| filename := company_name;
     termino_de_potencia :=
       {| potencia_titulo := titulo_termino_de_potencia;
          tabla_precio_potencia :=
            {| titulo := titulo_potencia;
               tarifas := columns_to_tarifas potencia_data |} |};
     termino_de_energia :=
       {| energia_titulo := titulo_termino_de_energia;
          tabla_precio_clasica_base :=
            {| titulo := titulo_base;
               tarifas := columns_to_tarifas clasica_base_data |};
          tabla_precio_clasica_unica :=
            {| titulo := titulo_unica;
               tarifas := columns_to_tarifas unica_data_expanded |} |} |}.
End Assembler.

(** ** The Latin fragment of the Unicode database

    The entries of the Unicode Character Database for Basic Latin, the
    Latin-1 Supplement and the Combining Diacritical Marks.  The other code
    points are taken as they are, not decomposed, not combining, caseless,
    neither space nor digit, which is what the database says of the dashes
    and of the euro sign that the program names. *)

Module Latin.
(** The full compatibility decomposition of one code point. *)
Definition decomposition (c : char) : str :=
  match c with
  | 0xA0 => [0x20]
  | 0xA8 => [0x20; 0x308]
  | 0xAA => [0x61]
  | 0xAF => [0x20; 0x304]
  | 0xB2 => [0x32]
  | 0xB3 => [0x33]
  | 0xB4 => [0x20; 0x301]
  | 0xB5 => [0x3BC]
  | 0xB8 => [0x20; 0x327]
  | 0xB9 => [0x31]
  | 0xBA => [0x6F]
  | 0xBC => [0x31; 0x2044; 0x34]
  | 0xBD => [0x31; 0x2044; 0x32]
  | 0xBE => [0x33; 0x2044; 0x34]
  | 0xC0 => [0x41; 0x300]
  | 0xC1 => [0x41; 0x301]
  | 0xC2 => [0x41; 0x302]
  | 0xC3 => [0x41; 0x303]
  | 0xC4 => [0x41; 0x308]
  | 0xC5 => [0x41; 0x30A]
  | 0xC7 => [0x43; 0x327]
  | 0xC8 => [0x45; 0x300]
  | 0xC9 => [0x45; 0x301]
  | 0xCA => [0x45; 0x302]
  | 0xCB => [0x45; 0x308]
  | 0xCC => [0x49; 0x300]
  | 0xCD => [0x49; 0x301]
  | 0xCE => [0x49; 0x302]
  | 0xCF => [0x49; 0x308]
  | 0xD1 => [0x4E; 0x303]
  | 0xD2 => [0x4F; 0x300]
  | 0xD3 => [0x4F; 0x301]
  | 0xD4 => [0x4F; 0x302]
  | 0xD5 => [0x4F; 0x303]
  | 0xD6 => [0x4F; 0x308]
  | 0xD9 => [0x55; 0x300]
  | 0xDA => [0x55; 0x301]
  | 0xDB => [0x55; 0x302]
  | 0xDC => [0x55; 0x308]
  | 0xDD => [0x59; 0x301]
  | 0xE0 => [0x61; 0x300]
  | 0xE1 => [0x61; 0x301]
  | 0xE2 => [0x61; 0x302]
  | 0xE3 => [0x61; 0x303]
  | 0xE4 => [0x61; 0x308]
  | 0xE5 => [0x61; 0x30A]
  | 0xE7 => [0x63; 0x327]
  | 0xE8 => [0x65; 0x300]
  | 0xE9 => [0x65; 0x301]
  | 0xEA => [0x65; 0x302]
  | 0xEB => [0x65; 0x308]
  | 0xEC => [0x69; 0x300]
  | 0xED => [0x69; 0x301]
  | 0xEE => [0x69; 0x302]
  | 0xEF => [0x69; 0x308]
  | 0xF1 => [0x6E; 0x303]
  | 0xF2 => [0x6F; 0x300]
  | 0xF3 => [0x6F; 0x301]
  | 0xF4 => [0x6F; 0x302]
  | 0xF5 => [0x6F; 0x303]
  | 0xF6 => [0x6F; 0x308]
  | 0xF9 => [0x75; 0x300]
  | 0xFA => [0x75; 0x301]
  | 0xFB => [0x75; 0x302]
  | 0xFC => [0x75; 0x308]
  | 0xFD => [0x79; 0x301]
  | 0xFF => [0x79; 0x308]
  | 0x340 => [0x300]
  | 0x341 => [0x301]
  | 0x343 => [0x313]
  | 0x344 => [0x308; 0x301]
  | _ => [c]
  end%N.

(** The canonical combining class. *)
Definition ccc (c : char) : N :=
  match c with
  | 0x334 | 0x335 | 0x336 | 0x337 | 0x338 => 1
  | 0x321 | 0x322 | 0x327 | 0x328 => 202
  | 0x31B => 216
  | 0x316 | 0x317 | 0x318 | 0x319 | 0x31C | 0x31D | 0x31E | 0x31F | 0x320
    | 0x323 | 0x324 | 0x325 | 0x326 | 0x329 | 0x32A | 0x32B | 0x32C
    | 0x32D | 0x32E | 0x32F | 0x330 | 0x331 | 0x332 | 0x333 | 0x339
    | 0x33A | 0x33B | 0x33C | 0x347 | 0x348 | 0x349 | 0x34D | 0x34E
    | 0x353 | 0x354 | 0x355 | 0x356 | 0x359 | 0x35A => 220
  | 0x300 | 0x301 | 0x302 | 0x303 | 0x304 | 0x305 | 0x306 | 0x307 | 0x308
    | 0x309 | 0x30A | 0x30B | 0x30C | 0x30D | 0x30E | 0x30F | 0x310
    | 0x311 | 0x312 | 0x313 | 0x314 | 0x33D | 0x33E | 0x33F | 0x340
    | 0x341 | 0x342 | 0x343 | 0x344 | 0x346 | 0x34A | 0x34B | 0x34C
    | 0x350 | 0x351 | 0x352 | 0x357 | 0x35B | 0x363 | 0x364 | 0x365
    | 0x366 | 0x367 | 0x368 | 0x369 | 0x36A | 0x36B | 0x36C | 0x36D
    | 0x36E | 0x36F => 230
  | 0x315 | 0x31A | 0x358 => 232
  | 0x35C | 0x35F | 0x362 => 233
  | 0x35D | 0x35E | 0x360 | 0x361 => 234
  | 0x345 => 240
  | _ => 0
  end%N.


(** Canonical ordering: a combining mark moves before the marks of a
    higher class that precede it.  [place] works on the reversed prefix. *)
Fixpoint place (c : char) (rev_out : str) : str :=
  match rev_out with
  | p :: rest =>
      if bool_decide (0 < ccc c)%N && bool_decide (ccc c < ccc p)%N
      then p :: place c rest
      else c :: rev_out
  | [] => [c]
  end.

Definition reorder (s : str) : str :=
  reverse (foldl (λ acc c, place c acc) [] s).

Definition nfkd (s : str) : str := reorder (s ≫= decomposition).

(** Lowercase: none of these code points has a lowercase that depends on
    its neighbours. *)
Definition lower_char (c : char) : char :=
  if bool_decide (0x41 ≤ c ≤ 0x5A)%N
     || (bool_decide (0xC0 ≤ c ≤ 0xDE)%N && negb (bool_decide (c = 0xD7%N)))
  then (c + 32)%N else c.

Definition isspace (c : char) : bool :=
  bool_decide (0x09 ≤ c ≤ 0x0D)%N || bool_decide (0x1C ≤ c ≤ 0x20)%N
  || bool_decide (c = 0x85%N) || bool_decide (c = 0xA0%N).

Definition decimal (c : char) : option N :=
  if bool_decide (0x30 ≤ c ≤ 0x39)%N then Some (c - 0x30)%N else None.
End Latin.

Definition ucd : UnicodeData :=
  {| nfkd := Latin.nfkd;
     combining := Latin.ccc;
     lower := fmap Latin.lower_char;
     isspace := Latin.isspace;
     decimal := Latin.decimal |}.

(** ** The upload layer (docling_price_tables_extraction_api_server.py) *)

Definition ALLOWED_EXTENSIONS : list str := [lit "pdf"; lit "zip"].

(** [s.rsplit(sep, 1)]: [s] cut at its last [sep], or [s] alone when it
    has none. *)
Fixpoint rsplit1 (sep : char) (s : str) : list str :=
  match s with
  | [] => [[]]
  | c :: s' =>
      match rsplit1 sep s' with
      | [a; b] => [c :: a; b]
      | _ => if bool_decide (c = sep) then [[]; s'] else [c :: s']
      end
  end.

(** [allowed_file], lines 34-36 of the server; the index [1] is read only
    when the name has a dot. *)
Definition allowed_file (U : UnicodeData) (filename : str) : bool :=
  contains [DOT] filename
  && bool_decide
       (lower U (default [] (rsplit1 DOT filename !! 1)) ∈ ALLOWED_EXTENSIONS).

(** [has_any], lines 193-201 of the server (and 150-158), on the result
    of the extraction: the three lists are always there and are lists. *)
Definition has_any (tables : ExtractionResult) : bool :=
  let pot := tarifas (tabla_precio_potencia (termino_de_potencia tables)) in
  let base := tarifas (tabla_precio_clasica_base (termino_de_energia tables)) in
  let unica := tarifas (tabla_precio_clasica_unica (termino_de_energia tables)) in
  existsb (λ l : list row_t, negb (bool_decide (l = []))) [pot; base; unica]
  && (bool_decide (0 < length pot) || bool_decide (0 < length base)
      || bool_decide (0 < length unica)).

(** ** Vocabulary of the statements *)

(** The float of the numeral with digits [digits] and [places] digits
    after the point: [dec 123456 2] is [1234.56]. *)
Definition dec (digits : Z) (places : nat) : pyfloat :=
  FNum (Qred (inject_Z digits * Qpower (10 # 1) (- Z.of_nat places))).

(** [s] occurs in [t] as a contiguous piece. *)
Definition infix_of (s t : str) : Prop := ∃ a b, t = a ++ s ++ b.

(** The potencia start marker, the header line, one data line and the end
    marker, one per line. *)
Definition scenario_text : str :=
  lit "T" ++ 0xC9%N :: lit "RMINO DE POTENCIA (" ++ EURO :: lit "/kW y d" ++
    0xED%N :: lit "a)" ++ LF ::
  lit "TARIFA | POTENCIA CONTRATADA | P1 | P2 | P3 | P4 | P5 | P6" ++ LF ::
  lit "TE1 | 3.45 | 0,12 | 0,15 | 0,10 | 0,10 | 0,15 | 0,12" ++ LF ::
  lit "Estos precios llevan incluidos".

(** A row given by its eight fields. *)
Definition mk_row (tarifa potencia_contratada p1 p2 p3 p4 p5 p6 : cell) : row_t :=
  list_to_map
    [(lit "tarifa", tarifa); (lit "potencia_contratada", potencia_contratada);
     (lit "P1", p1); (lit "P2", p2); (lit "P3", p3);
     (lit "P4", p4); (lit "P5", p5); (lit "P6", p6)].

Definition potencia_rows (U : UnicodeData) (text : str) : list row_t :=
  tarifas (tabla_precio_potencia
             (termino_de_potencia (extract_price_tables_from_text U text))).
Definition clasica_base_rows (U : UnicodeData) (text : str) : list row_t :=
  tarifas (tabla_precio_clasica_base
             (termino_de_energia (extract_price_tables_from_text U text))).
Definition unica_rows (U : UnicodeData) (text : str) : list row_t :=
  tarifas (tabla_precio_clasica_unica
             (termino_de_energia (extract_price_tables_from_text U text))).

(** The [i]-th value of the column [key], [None] when the column is absent
    or too short. *)
Definition cell_at (columns : columns_t) (key : str) (i : nat) : cell :=
  default CNone (columns !! key ≫= (.!! i)).

(** The pattern [rx] matches at offset [p] of [s]. *)
Definition matches_at (U : UnicodeData) (rx : regex) (s : str) (p : nat) : Prop :=
  p ≤ length s ∧ is_Some (match_here U (items rx) (drop p s)).

(** [p] is the last offset of [s] at which [rx] matches. *)
Definition last_occurrence (U : UnicodeData) (rx : regex) (s : str) (p : nat)
  : Prop :=
  matches_at U rx s p ∧ ∀ q, p < q → ¬ matches_at U rx s q.

(** The match at the greatest offset, searched from the end; [i] is the
    offset of [s] in the whole text. *)
Fixpoint last_match (U : UnicodeData) (r : list item) (i : nat) (s : str)
  : option (nat * nat) :=
  let here := (λ n, (i, i + n)) <$> match_here U r s in
  match s with
  | [] => here
  | _ :: s' =>
      match last_match U r (S i) s' with
      | Some m => Some m
      | None => here
      end
  end.

(** No match of the pattern [r] starts inside another one. *)
Definition no_overlap (U : UnicodeData) (r : list item) (s : str) : Prop :=
  ∀ q n j, match_here U r (drop q s) = Some n → 0 < j < n →
           match_here U r (drop (q + j) s) = None.

(** [n] characters of [s] are there and all satisfy [P]. *)
Definition prefix_all (P : char → Prop) (n : nat) (s : str) : Prop :=
  n ≤ length s ∧ Forall P (take n s).

(** A UNICA table with one row, and the same table after an earlier one. *)
Definition unica_marker_text : str :=
  lit "PRECIO CL" ++ 0xC1%N :: lit "SICA BASE TE3 UNICA (c" ++ EURO :: lit "/kWh)".
Definition unica_table_text : str :=
  unica_marker_text ++ LF ::
  lit "TARIFA | POTENCIA CONTRATADA | P1 - P6" ++ LF ::
  lit "TE3 | 10 | 12,5".
Definition two_unica_tables_text : str :=
  unica_marker_text ++ LF ::
  lit "TARIFA | POTENCIA CONTRATADA | P1 - P6" ++ LF ::
  lit "TE9 | 99 | 99,9" ++ LF :: unica_table_text.

(** Every string cell of the table is a contiguous piece of [T]. *)
Definition cells_from (T : str) (columns : columns_t) : Prop :=
  ∀ h col s, columns !! h = Some col → CStr s ∈ col → infix_of s T.

(** A small table with a short column. *)
Definition ragged_columns : columns_t :=
  <[lit "P1" := [CFloat (dec 12 2)]]>
    {[ lit "TARIFA" := [CStr (lit "te1"); CStr (lit "te2")] ]}.

(** [p] is the first offset of [s] at which [rx] matches. *)
Definition first_occurrence (U : UnicodeData) (rx : regex) (s : str) (p : nat)
  : Prop :=
  matches_at U rx s p ∧ ∀ q, q < p → ¬ matches_at U rx s q.

(** The ASCII digits and the numeral of a list of digit values. *)
Definition digits10 : list N := [0; 1; 2; 3; 4; 5; 6; 7; 8; 9]%N.
Definition digit_char (d : N) : char := (0x30 + d)%N.
Definition numeral (ds : list N) : list char := digit_char <$> ds.
Definition digits_value (ds : list N) : Z :=
  foldl (λ m d, 10 * m + Z.of_N d)%Z 0%Z ds.

(** The database knows the ASCII digits, and the point is no digit and
    no space. *)
Definition ascii_numerals (U : UnicodeData) : Prop :=
  Forall (λ d, decimal U (digit_char d) = Some d
               ∧ isspace U (digit_char d) = false) digits10
  ∧ decimal U DOT = None ∧ isspace U DOT = false.

(** The string handed to [float] for a cleaned cell, line 47. *)
Definition standardized (s : str) : str :=
  replace [COMMA] [DOT] (replace [DOT] [] s).

(** What holds of a cell that stays text. *)
Definition text_cell (U : UnicodeData) (v : cell) : Prop :=
  match v with
  | CStr s =>
      s ≠ [] ∧ s ≠ [HYPHEN] ∧ s ≠ [EMDASH] ∧ (BAR ∉ s) ∧ (LF ∉ s)
      ∧ float_of_str U (standardized s) = None
  | _ => True
  end.

(** Every cell of the table satisfies [P]. *)
Definition cells_all (P : cell → Prop) (columns : columns_t) : Prop :=
  ∀ h col v, columns !! h = Some col → v ∈ col → P v.

(** The lines under the header row, [data_lines] of line 100; [None] when
    the start marker or the header row is not found (lines 61-63, 95-97). *)
Definition data_lines (U : UnicodeData) (norm_text : str) (headers : list str)
    (start_pattern : regex) (end_pattern : option regex) : option (list str) :=
  match search U start_pattern norm_text with
  | None => None
  | Some (start_idx, _) =>
      let end_m :=
        match end_pattern with
        | Some rx => search_from U rx norm_text start_idx
        | None => None
        end in
      let table_block :=
        match end_m with
        | Some (end_idx, _) =>
            take (end_idx - start_idx) (drop start_idx norm_text)
        | None => drop start_idx norm_text
        end in
      let lines := split_on LF (strip U table_block) in
      match header_row_index U (normalize_text U <$> headers) lines with
      | None => None
      | Some i => Some (drop (i + 1) lines)
      end
  end.

(** The value a line gives to the [j]-th header, lines 112-115. *)
Definition cell_of (U : UnicodeData) (parts : list str) (j : nat) : cell :=
  match parts !! j with
  | Some p => clean_and_convert U p
  | None => CNone
  end.

(** The fields of a row and the columns they are read from. *)
Definition row_fields : list (str * str) :=
  [(lit "tarifa", lit "TARIFA");
   (lit "potencia_contratada", lit "POTENCIA CONTRATADA");
   (lit "P1", lit "P1"); (lit "P2", lit "P2"); (lit "P3", lit "P3");
   (lit "P4", lit "P4"); (lit "P5", lit "P5"); (lit "P6", lit "P6")].

(** * Properties *)

(** Literal keys are compared as lists of code points. *)
Ltac eval_keys :=
  repeat match goal with
         | |- context [lit ?s] =>
             let v := eval vm_compute in (lit s) in change (lit s) with v
         end.


(** ** String operations *)

Lemma starts_with_spec p s : starts_with p s = true ↔ ∃ r, s = p ++ r.
Proof.
  revert s. induction p as [|a p IH]; intros [|b s]; simpl.
  - split; eauto.
  - split; eauto.
  - split; [done | intros [r Hr]; done].
  - rewrite andb_true_iff, bool_decide_eq_true, IH. split.
    + intros [-> [r ->]]. eauto.
    + intros [r Hr]. injection Hr as -> ->. eauto.
Qed.

Lemma contains_spec p s : contains p s = true ↔ infix_of p s.
Proof.
  induction s as [|c s IH]; simpl.
  - rewrite orb_false_r, starts_with_spec. split.
    + intros [r ->]. exists [], r. done.
    + intros (a & b & H). symmetry in H.
      apply app_eq_nil in H as [-> H]. apply app_eq_nil in H as [-> ->].
      exists []. done.
  - rewrite orb_true_iff, starts_with_spec, IH. split.
    + intros [[r ->] | (a & b & ->)].
      * exists [], r. done.
      * exists (c :: a), b. done.
    + intros (a & b & H). destruct a as [|c' a].
      * left. exists b. done.
      * right. injection H as -> ->. exists a, b. done.
Qed.

Lemma contains_false_notin c p s : c ∉ s → contains (c :: p) s = false.
Proof.
  intros Hc. apply not_true_is_false. rewrite contains_spec.
  intros (a & b & ->). apply Hc. set_solver.
Qed.

Lemma contains_false_tail c p s : contains p s = false → contains (c :: p) s = false.
Proof.
  intros Hp. apply not_true_is_false. rewrite contains_spec.
  intros (a & b & ->). apply not_true_iff_false in Hp. apply Hp.
  rewrite contains_spec. exists (a ++ [c]), b. by rewrite <- !app_assoc.
Qed.

Lemma infix_of_refl s : infix_of s s.
Proof. exists [], []. by rewrite app_nil_r. Qed.

Lemma infix_of_trans s t u : infix_of s t → infix_of t u → infix_of s u.
Proof.
  intros (a & b & ->) (a' & b' & ->). exists (a' ++ a), (b ++ b').
  by rewrite <- !app_assoc.
Qed.

Lemma infix_of_notin c s t : infix_of s t → c ∉ t → c ∉ s.
Proof. intros (a & b & ->) Hc Hs. apply Hc. set_solver. Qed.

(** *** [replace] *)

Lemma replace_go_skip old new k s :
  replace_go old new k s = replace old new (drop k s).
Proof.
  revert k. induction s as [|c s IH]; intros [|k]; try done.
  simpl. by rewrite IH.
Qed.

Lemma replace_cons old new c s :
  replace old new (c :: s) =
  if starts_with old (c :: s)
  then new ++ replace old new (drop (length old - 1) s)
  else c :: replace old new s.
Proof. unfold replace at 1. simpl replace_go. by rewrite replace_go_skip. Qed.

Lemma replace_absent old new s :
  contains old s = false → replace old new s = s.
Proof.
  induction s as [|c s IH]; [done|].
  intros H. simpl in H. apply orb_false_iff in H as [H1 H2].
  rewrite replace_cons, H1. by rewrite IH.
Qed.

Lemma replace_same old s : old ≠ [] → replace old old s = s.
Proof.
  intros Hold. induction s as [s IH] using (induction_ltof1 _ (@length char)).
  unfold ltof in IH. destruct s as [|c s]; [done|].
  rewrite replace_cons. destruct (starts_with old (c :: s)) eqn:E.
  - apply starts_with_spec in E as [r E].
    destruct old as [|a old]; [done|]. injection E as -> ->.
    replace (length (_ :: old) - 1) with (length old) by (simpl; lia).
    rewrite drop_app_length.
    rewrite IH; [done|]. simpl. rewrite length_app. lia.
  - rewrite IH; [done|]. simpl. lia.
Qed.

Lemma replace_notin old new c s : c ∉ new → c ∉ s → c ∉ replace old new s.
Proof.
  intros Hnew. induction s as [s IH] using (induction_ltof1 _ (@length char)).
  unfold ltof in IH. destruct s as [|a s]; [done|].
  intros Hs. rewrite replace_cons. destruct (starts_with old (a :: s)).
  - rewrite elem_of_app. intros [?|H]; [done|]. revert H. apply IH.
    + simpl. rewrite length_drop. lia.
    + intros H. apply Hs. right. eapply subseteq_drop, H.
  - rewrite elem_of_cons. intros [->|H]; [set_solver|]. revert H. apply IH.
    + simpl. lia.
    + set_solver.
Qed.

Lemma replace_char_notin a b s : a ≠ b → a ∉ replace [a] [b] s.
Proof.
  intros Hab. induction s as [|c s IH]; [set_solver|].
  rewrite replace_cons. simpl. rewrite andb_true_r. case_bool_decide.
  - set_solver.
  - set_solver.
Qed.

(** *** [collapse_blanks] *)

Lemma collapse_go_notin c b s : c ≠ SP → c ∉ s → c ∉ collapse_go b s.
Proof.
  intros Hc. revert b. induction s as [|a s IH]; intros b Hs; [done|].
  simpl. destruct (is_blank a), b; set_solver.
Qed.

Lemma collapse_go_fixed s :
  (∀ b, collapse_go b (collapse_go true s) = collapse_go true s) ∧
  collapse_go false (collapse_go false s) = collapse_go false s.
Proof.
  induction s as [|c s [IH1 IH2]]; [done|]. simpl.
  destruct (is_blank c) eqn:E.
  - split; [done|]. simpl. replace (is_blank SP) with true by done.
    by rewrite IH1.
  - split; [intros b|]; simpl; rewrite E; by rewrite IH2.
Qed.

Lemma collapse_blanks_idem s :
  collapse_blanks (collapse_blanks s) = collapse_blanks s.
Proof. apply collapse_go_fixed. Qed.

(** ** The text normalizer *)

Section NormalizerProps.
Variable U : UnicodeData.

Lemma normalize_text_no_cr s : CR ∉ normalize_text U s.
Proof.
  unfold normalize_text, collapse_blanks.
  apply collapse_go_notin; [done|].
  do 4 (apply replace_notin; [by vm_compute; set_solver|]).
  by apply replace_char_notin.
Qed.

(** C4, amended: a second pass of [normalize_text] changes nothing when
    the first pass left no ["k w"] and no ["€ /"] behind, on a text that
    accent stripping and lowercasing leave as it is. *)
Theorem normalize_text_idempotent_on_settled (x : str) :
  lower U (strip_accents U (normalize_text U x)) = normalize_text U x →
  contains (lit "k w") (normalize_text U x) = false →
  contains (EURO :: lit " /") (normalize_text U x) = false →
  normalize_text U (normalize_text U x) = normalize_text U x.
Proof.
  intros Hfold Hkw Heuro.
  pose proof (normalize_text_no_cr x) as Hcr.
  assert (Hcol : collapse_blanks (normalize_text U x) = normalize_text U x)
    by apply collapse_blanks_idem.
  revert Hfold Hkw Heuro Hcr Hcol.
  generalize (normalize_text U x). intros y Hfold Hkw Heuro Hcr Hcol.
  unfold normalize_text. rewrite Hfold.
  rewrite (replace_absent [CR; LF]) by by apply contains_false_notin.
  rewrite (replace_absent [CR]) by by apply contains_false_notin.
  rewrite (replace_absent (EURO :: lit " /")) by done.
  rewrite (replace_absent (lit "c" ++ EURO :: lit " /"))
    by by apply (contains_false_tail 0x63%N).
  rewrite (replace_absent (lit "k w")) by done.
  rewrite replace_same by done.
  done.
Qed.
End NormalizerProps.

Lemma normalize_text_idempotent_on_settled_witness :
  normalize_text ucd (normalize_text ucd (lit "Hola   Mundo"))
  = normalize_text ucd (lit "Hola   Mundo").
Proof.
  apply (normalize_text_idempotent_on_settled ucd (lit "Hola   Mundo"));
    vm_compute; reflexivity.
Defined.

(** C4 as stated fails: blanks are collapsed after ["k w"] is joined, so
    ["k  w"] becomes ["k w"] in one pass and ["kw"] in the next. *)
Lemma normalize_text_not_idempotent :
  normalize_text ucd (normalize_text ucd (lit "k  w"))
  ≠ normalize_text ucd (lit "k  w").
Proof. vm_compute. discriminate. Qed.

(** ** The cell normalizer *)

(** C5: ["1.234,56"] converts to the float 1234.56; a cell that is an
    em-dash, a hyphen or empty once bars and surrounding spaces are
    stripped converts to [None]; a cell that [float] rejects is returned as
    its cleaned string, as ["TE1"] is. *)
Theorem clean_and_convert_cases :
  clean_and_convert ucd (lit "1.234,56") = CFloat (dec 123456 2)
  ∧ clean_and_convert ucd [EMDASH] = CNone
  ∧ clean_and_convert ucd [HYPHEN] = CNone
  ∧ clean_and_convert ucd [] = CNone
  ∧ clean_and_convert ucd (lit "TE1") = CStr (lit "TE1")
  ∧ (∀ U value,
       strip U (replace [BAR] [] value) ∈ [[EMDASH]; [HYPHEN]; []] →
       clean_and_convert U value = CNone)
  ∧ (∀ U value,
       strip U (replace [BAR] [] value) ∉ [[EMDASH]; [HYPHEN]; []] →
       float_of_str U
         (replace [COMMA] [DOT]
            (replace [DOT] [] (strip U (replace [BAR] [] value)))) = None →
       clean_and_convert U value = CStr (strip U (replace [BAR] [] value))).
Proof.
  repeat split; try (vm_compute; reflexivity).
  - intros U value H. unfold clean_and_convert. by rewrite bool_decide_eq_true_2.
  - intros U value H1 H2. unfold clean_and_convert.
    rewrite bool_decide_eq_false_2 by done. by rewrite H2.
Qed.

Lemma clean_and_convert_cases_witness :
  clean_and_convert ucd (lit " | - ") = CNone
  ∧ clean_and_convert ucd (lit "| 2.0TD |") = CStr (lit "2.0TD").
Proof.
  destruct clean_and_convert_cases as (_ & _ & _ & _ & _ & Hnone & Hstr).
  split.
  - apply Hnone. vm_compute. set_solver.
  - apply (Hstr ucd (lit "| 2.0TD |")).
    + vm_compute. set_solver.
    + vm_compute. reflexivity.
Defined.

(** ** The assembler's constants *)

(** C10: whatever the text, the result carries the file name
    ["Total Energies"] and the two fixed section titles. *)
Theorem fixed_fields (U : UnicodeData) (text : str) :
  let result := extract_price_tables_from_text U text in
  filename result = lit "Total Energies"
  ∧ potencia_titulo (termino_de_potencia result)
    = lit "T" ++ 0xC9%N :: lit "RMINO DE POTENCIA (" ++ EURO ::
      lit "/kW y d" ++ 0xED%N :: lit "a)"
  ∧ energia_titulo (termino_de_energia result)
    = lit "T" ++ 0xC9%N :: lit "RMINO DE ENERG" ++ 0xCD%N :: lit "A (c" ++
      EURO :: lit "/kWh)".
Proof. done. Qed.

(** ** The end-to-end scenario *)

(** C2, amended: the scenario yields exactly one row; its cells are read
    from the lowercased text, so [tarifa] is ["te1"], and the point of
    ["3.45"] is dropped as a thousands separator, so [potencia_contratada]
    is 345.0; P1..P6 are 0.12, 0.15, 0.10, 0.10, 0.15, 0.12. *)
Theorem scenario_rows :
  potencia_rows ucd scenario_text =
  [mk_row (CStr (lit "te1")) (CFloat (dec 345 0))
          (CFloat (dec 12 2)) (CFloat (dec 15 2)) (CFloat (dec 10 2))
          (CFloat (dec 10 2)) (CFloat (dec 15 2)) (CFloat (dec 12 2))].
Proof. vm_compute. reflexivity. Qed.

(** C2 as stated fails: the row is not the one with [tarifa] ["TE1"] and
    [potencia_contratada] 3.45. *)
Lemma scenario_rows_not_as_stated :
  potencia_rows ucd scenario_text ≠
  [mk_row (CStr (lit "TE1")) (CFloat (dec 345 2))
          (CFloat (dec 12 2)) (CFloat (dec 15 2)) (CFloat (dec 10 2))
          (CFloat (dec 10 2)) (CFloat (dec 15 2)) (CFloat (dec 12 2))].
Proof.
  intros H.
  apply (f_equal (λ rows, head rows ≫= (.!! lit "tarifa"))) in H.
  vm_compute in H. discriminate.
Qed.

(** ** Reshaping *)

Lemma max_len_empty : max_len ∅ = 0.
Proof. unfold max_len. by rewrite map_to_list_empty. Qed.

Lemma max_len_ge (columns : columns_t) h col :
  columns !! h = Some col → length col ≤ max_len columns.
Proof.
  intros H. unfold max_len. apply max_list_elem_of_le.
  apply list_elem_of_fmap. exists col. split; [done|].
  apply list_elem_of_fmap. exists (h, col). split; [done|].
  by apply elem_of_map_to_list.
Qed.

Lemma max_len_attained (columns : columns_t) :
  columns ≠ ∅ → ∃ h col, columns !! h = Some col ∧ length col = max_len columns.
Proof.
  intros Hne. unfold max_len.
  assert (Hl : length <$> (map_to_list columns).*2 ≠ []).
  { intros H. apply fmap_nil_inv, fmap_nil_inv in H.
    by apply map_to_list_empty_iff in H. }
  pose proof (max_list_elem_of _ Hl) as Hin.
  apply list_elem_of_fmap in Hin as (col & Hlen & Hin).
  apply list_elem_of_fmap in Hin as ([h col'] & -> & Hin).
  apply elem_of_map_to_list in Hin. by exists h, col'.
Qed.

(** C7: when the table has the combined column ["P1 - P6"], the expanded
    table has the six columns P1..P6, each with the combined column's
    values, carries TARIFA and POTENCIA CONTRATADA over as they are (or
    not at all, if absent), and has no other column; without the combined
    column the expansion is the empty table. *)
Theorem expand_unica_table_law (table_data : columns_t) :
  match table_data !! lit "P1 - P6" with
  | Some price_values =>
      expand_unica_table table_data !! lit "P1" = Some price_values
      ∧ expand_unica_table table_data !! lit "P2" = Some price_values
      ∧ expand_unica_table table_data !! lit "P3" = Some price_values
      ∧ expand_unica_table table_data !! lit "P4" = Some price_values
      ∧ expand_unica_table table_data !! lit "P5" = Some price_values
      ∧ expand_unica_table table_data !! lit "P6" = Some price_values
      ∧ expand_unica_table table_data !! lit "TARIFA"
        = table_data !! lit "TARIFA"
      ∧ expand_unica_table table_data !! lit "POTENCIA CONTRATADA"
        = table_data !! lit "POTENCIA CONTRATADA"
      ∧ dom (expand_unica_table table_data) ⊆
          list_to_set [lit "TARIFA"; lit "POTENCIA CONTRATADA"; lit "P1";
                       lit "P2"; lit "P3"; lit "P4"; lit "P5"; lit "P6"]
  | None => expand_unica_table table_data = ∅
  end.
Proof.
  unfold expand_unica_table.
  destruct (table_data !! lit "P1 - P6") as [price_values|]; [|done].
  destruct (table_data !! lit "TARIFA") as [c1|],
           (table_data !! lit "POTENCIA CONTRATADA") as [c2|];
    simpl foldl; eval_keys;
    repeat split; try by simplify_map_eq.
  all: rewrite ?dom_insert_L, ?dom_empty_L; set_solver.
Qed.

Lemma field_cell_at (columns : columns_t) n key i :
  field columns n key i = cell_at columns key i.
Proof.
  unfold field, cell_at.
  destruct (columns !! key) as [col|]; case_bool_decide as Hi; simpl in *.
  - done.
  - by rewrite lookup_ge_None_2 by lia.
  - lia.
  - done.
Qed.

Lemma columns_to_tarifas_length (columns : columns_t) :
  length (columns_to_tarifas columns) = max_len columns.
Proof.
  unfold columns_to_tarifas. case_bool_decide as H.
  - by rewrite H, max_len_empty.
  - by rewrite length_fmap, length_seq.
Qed.

Lemma columns_to_tarifas_lookup (columns : columns_t) i row :
  columns_to_tarifas columns !! i = Some row →
  row = tariff_row columns (max_len columns) i.
Proof.
  unfold columns_to_tarifas. case_bool_decide; [done|].
  rewrite list_lookup_fmap. intros Hrow.
  destruct (seq 0 (max_len columns) !! i) as [j|] eqn:E; [|done].
  apply lookup_seq in E as [-> _]. by injection Hrow as <-.
Qed.

(** C8: for a table whose longest column has length [N] ([0] for the table
    without columns), [columns_to_tarifas] gives [N] rows; every row has
    exactly the eight fields, and the field of row [i] is the [i]-th value
    of its column, [None] when the column is absent or too short. *)
Theorem columns_to_tarifas_pivot (columns : columns_t) (N : nat) :
  (∀ h col, columns !! h = Some col → length col ≤ N) →
  (columns = ∅ ∧ N = 0) ∨ (∃ h col, columns !! h = Some col ∧ length col = N) →
  length (columns_to_tarifas columns) = N
  ∧ ∀ i row, columns_to_tarifas columns !! i = Some row →
      dom row = list_to_set
                  [lit "tarifa"; lit "potencia_contratada"; lit "P1";
                   lit "P2"; lit "P3"; lit "P4"; lit "P5"; lit "P6"]
      ∧ row !! lit "tarifa" = Some (cell_at columns (lit "TARIFA") i)
      ∧ row !! lit "potencia_contratada"
        = Some (cell_at columns (lit "POTENCIA CONTRATADA") i)
      ∧ row !! lit "P1" = Some (cell_at columns (lit "P1") i)
      ∧ row !! lit "P2" = Some (cell_at columns (lit "P2") i)
      ∧ row !! lit "P3" = Some (cell_at columns (lit "P3") i)
      ∧ row !! lit "P4" = Some (cell_at columns (lit "P4") i)
      ∧ row !! lit "P5" = Some (cell_at columns (lit "P5") i)
      ∧ row !! lit "P6" = Some (cell_at columns (lit "P6") i).
Proof.
  intros Hle Hmax. split.
  - rewrite columns_to_tarifas_length.
    destruct Hmax as [[-> ->]|(h & col & Hcol & <-)].
    + apply max_len_empty.
    + apply Nat.le_antisymm; [|by eapply max_len_ge].
      destruct (max_len_attained columns) as (h' & col' & Hcol' & <-).
      * intros ->. by rewrite lookup_empty in Hcol.
      * by eapply Hle.
  - intros i row ->%columns_to_tarifas_lookup. unfold tariff_row.
    rewrite !field_cell_at.
    generalize (cell_at columns). intros f. eval_keys.
    split; [rewrite !dom_insert_L, dom_empty_L; set_solver|].
    repeat split; by simplify_map_eq.
Qed.

(** ** Absent markers *)

Section Absence.
Variable U : UnicodeData.

Lemma finditer_go_none r s : ∀ i j skip,
  search_go U r i s = None → finditer_go U r j skip s = [].
Proof.
  induction s as [|c s IH]; intros i j skip; simpl.
  - destruct (match_here U r []); [done|]. by destruct skip.
  - destruct (match_here U r (c :: s)); [done|].
    destruct skip; eauto.
Qed.

Lemma finditer_none rx s :
  bol rx = false → search U rx s = None → finditer U rx s = [].
Proof.
  unfold search, search_from, finditer. intros ->. apply finditer_go_none.
Qed.

(** C1: a table whose start marker matches nowhere in the normalized
    text has no rows, whatever the other two tables hold; so a text
    without any of the three markers gives three empty lists.  The
    function is total: it returns for every text. *)
Theorem no_marker_no_rows (text : str) :
  (search U potencia_start_rx (normalize_text U text) = None →
   potencia_rows U text = [])
  ∧ (search U clasica_base_start_rx (normalize_text U text) = None →
     clasica_base_rows U text = [])
  ∧ (search U unica_start_rx (normalize_text U text) = None →
     unica_rows U text = []).
Proof.
  unfold potencia_rows, clasica_base_rows, unica_rows,
    extract_price_tables_from_text; simpl.
  repeat split; intros H.
  - unfold parse_table_to_columns. by rewrite H.
  - unfold parse_table_to_columns. by rewrite H.
  - unfold unica_data_raw. by rewrite finditer_none.
Qed.
End Absence.

Lemma no_marker_no_rows_witness :
  potencia_rows ucd (lit "Factura de la luz") = []
  ∧ clasica_base_rows ucd (lit "Factura de la luz") = []
  ∧ unica_rows ucd (lit "Factura de la luz") = [].
Proof.
  destruct (no_marker_no_rows ucd (lit "Factura de la luz")) as (H1 & H2 & H3).
  split; [|split]; [apply H1 | apply H2 | apply H3]; vm_compute; reflexivity.
Defined.

(** ** Rectangular tables *)

Section Rectangular.
Variable U : UnicodeData.

Lemma dom_append_row parts headers : ∀ idx (columns : columns_t),
  dom (append_row U parts idx headers columns) = dom columns.
Proof.
  induction headers as [|h hs IH]; intros idx columns; simpl; [done|].
  by rewrite IH, dom_alter_L.
Qed.

Lemma dom_process_lines headers lines : ∀ columns : columns_t,
  dom (foldl (process_line U headers) columns lines) = dom columns.
Proof.
  induction lines as [|l ls IH]; intros columns; simpl; [done|].
  rewrite IH. unfold process_line.
  destruct (skip_line _); [done|]. apply dom_append_row.
Qed.

Lemma foldl_alter_lookup (f : list cell → list cell) hs :
  (∀ col, f (f col) = f col) →
  ∀ (columns : columns_t) h,
    foldl (λ cols header, alter f header cols) columns hs !! h
    = if decide (h ∈ hs) then f <$> columns !! h else columns !! h.
Proof.
  intros Hf. induction hs as [|h0 hs IH]; intros columns h; cbn [foldl].
  - destruct (decide (h ∈ [])); [set_solver|done].
  - rewrite IH. destruct (decide (h = h0)) as [->|Hne].
    + rewrite lookup_alter_eq.
      destruct (decide (h0 ∈ hs)), (decide (h0 ∈ h0 :: hs)); try set_solver.
      destruct (columns !! h0); simpl; [|done]. by rewrite Hf.
    + rewrite lookup_alter_ne by done.
      destruct (decide (h ∈ hs)), (decide (h ∈ h0 :: hs)); set_solver.
Qed.

Lemma pad_columns_length (headers : list str) (columns : columns_t) h col :
  dom columns ⊆ list_to_set headers →
  pad_columns headers columns !! h = Some col →
  length col = max_len columns.
Proof.
  intros Hdom. unfold pad_columns. case_bool_decide as Hem.
  - subst. by rewrite lookup_empty.
  - rewrite foldl_alter_lookup.
    + assert (Hin : ∀ c, columns !! h = Some c → h ∈ headers).
      { intros c Hc. apply (elem_of_list_to_set (C := gset str)).
        apply Hdom, elem_of_dom. eauto. }
      destruct (columns !! h) as [c|] eqn:E.
      * destruct (decide (h ∈ headers)) as [_|Hn]; [|by destruct Hn; apply (Hin c)].
        simpl. intros [= <-].
        apply max_len_ge in E. rewrite length_app, length_replicate. lia.
      * by destruct (decide (h ∈ headers)).
    + intros c.
      match goal with
      | |- _ ++ replicate ?k _ = _ => replace k with 0; [apply app_nil_r|]
      end.
      rewrite length_app, length_replicate. lia.
Qed.

(** C9: all the columns of the table [parse_table_to_columns] returns
    have the same length (that of the longest one before padding). *)
Theorem parse_table_to_columns_rectangular
    (orig_text norm_text : str) (headers : list str)
    (start_pattern : regex) (end_pattern : option regex)
    (h1 h2 : str) (col1 col2 : list cell) :
  parse_table_to_columns U orig_text norm_text headers
    start_pattern end_pattern !! h1 = Some col1 →
  parse_table_to_columns U orig_text norm_text headers
    start_pattern end_pattern !! h2 = Some col2 →
  length col1 = length col2.
Proof.
  unfold parse_table_to_columns.
  destruct (search U start_pattern norm_text) as [[start_idx ?]|]; [|done].
  destruct (header_row_index _ _ _) as [i|]; [|done].
  intros H1 H2.
  apply pad_columns_length in H1, H2; [congruence| |].
  all: rewrite dom_process_lines, dom_list_to_map_L, <- list_fmap_compose,
         list_fmap_id; done.
Qed.
End Rectangular.

(** ** The last occurrence of the UNICA marker *)

Section LastOccurrence.
Variable U : UnicodeData.

Lemma prefix_all_impl (P Q : char → Prop) n s :
  (∀ c, P c → Q c) → prefix_all P n s → prefix_all Q n s.
Proof. intros HPQ [Hn HP]. split; [done|]. eapply Forall_impl; eauto. Qed.

Lemma prefix_all_cons (P : char → Prop) n c s :
  P c → prefix_all P n s → prefix_all P (S n) (c :: s).
Proof.
  intros Hc [Hn HP]. split; [simpl; lia|]. simpl. by constructor.
Qed.

Lemma match_one_chars (P : char → Prop) p k s n :
  (∀ c, p c = true → P c) →
  (∀ s n, k s = Some n → prefix_all P n s) →
  match_one p k s = Some n → prefix_all P n s.
Proof.
  intros Hp Hk. destruct s as [|c s]; simpl; [done|].
  destruct (p c) eqn:E; [|done].
  destruct (k s) as [m|] eqn:Ek; simpl; [|done].
  intros [= <-]. apply prefix_all_cons; eauto.
Qed.

Lemma match_star_chars (P : char → Prop) p k s : ∀ n,
  (∀ c, p c = true → P c) →
  (∀ s n, k s = Some n → prefix_all P n s) →
  match_star p k s = Some n → prefix_all P n s.
Proof.
  intros n Hp Hk. revert n.
  induction s as [|c s IH]; intros n; simpl; [by apply Hk|].
  destruct (p c) eqn:E; [|by apply Hk].
  destruct (match_star p k s) as [m|]; [|by apply Hk].
  intros [= <-]. apply prefix_all_cons; eauto.
Qed.

(** The characters of a match are each accepted by an item of the
    pattern. *)
Lemma match_here_chars r : ∀ s n,
  match_here U r s = Some n →
  prefix_all (λ c, ∃ it, it ∈ r ∧ cls_match U (it_cls it) c = true) n s.
Proof.
  induction r as [|[k q] r IH]; intros s n; simpl.
  - intros [= <-]. split; [lia|]. by rewrite take_0.
  - set (P := λ c, ∃ it, it ∈ Item k q :: r ∧ cls_match U (it_cls it) c = true).
    assert (Hk : ∀ c, cls_match U k c = true → P c).
    { intros c Hc. exists (Item k q). split; [left|done]. }
    assert (Hr : ∀ s n, match_here U r s = Some n → prefix_all P n s).
    { intros s' n' H. eapply prefix_all_impl; [|by apply IH].
      intros c (it & Hit & Hc). exists it. split; [by right|done]. }
    destruct q.
    + by apply match_one_chars.
    + destruct (match_one _ _ s) eqn:E.
      * intros [= <-]. revert E. by apply match_one_chars.
      * apply Hr.
    + destruct (match_here U r s) eqn:E.
      * intros [= <-]. by apply Hr.
      * by apply match_one_chars.
    + by apply match_star_chars.
    + apply match_one_chars; [done|]. intros s' n'. by apply match_star_chars.
Qed.

Lemma no_overlap_tail r c s : no_overlap U r (c :: s) → no_overlap U r s.
Proof. intros H q n j Hm Hj. by apply (H (S q) n j). Qed.

(** A pattern that starts with a letter that nothing else in it accepts
    has no overlapping matches. *)
Lemma first_letter_no_overlap a r s :
  Forall (λ it, cls_match U (it_cls it) a = false) r →
  no_overlap U (Item (Ch a) One :: r) s.
Proof.
  intros Htail q n j Hm Hj. rewrite <- drop_drop.
  destruct (drop q s) as [|c t]; [done|].
  cbn [match_here match_one cls_match] in Hm.
  case_bool_decide; [|done].
  destruct (match_here U r t) as [n'|] eqn:E; [|done].
  injection Hm as <-. apply match_here_chars in E as [Hlen Hall].
  destruct j as [|j]; [lia|]. cbn [drop].
  destruct (drop j t) as [|c' t'] eqn:Ed; [done|].
  cbn [match_here match_one cls_match].
  rewrite bool_decide_eq_false_2; [done|]. intros ->.
  assert (Hin : a ∈ take n' t).
  { apply list_elem_of_lookup. exists j.
    rewrite lookup_take_lt by lia.
    by rewrite <- (Nat.add_0_r j), <- lookup_drop, Ed. }
  rewrite Forall_forall in Hall. apply Hall in Hin as (it & Hit & Hc).
  rewrite Forall_forall in Htail. by rewrite (Htail it Hit) in Hc.
Qed.

Lemma last_cons_option {A} (x : A) l : last (x :: l) = Some (default x (last l)).
Proof.
  revert x. induction l as [|y l IH]; intros x; [done|].
  change (last (x :: y :: l)) with (last (y :: l)). rewrite IH.
  simpl. by destruct l.
Qed.

(** When matches do not overlap, the last match [finditer] yields is the
    match at the greatest offset. *)
Lemma finditer_go_last r s : ∀ i skip,
  no_overlap U r s →
  (∀ j, j < skip → match_here U r (drop j s) = None) →
  last (finditer_go U r i skip s) = last_match U r i s.
Proof.
  induction s as [|c s IH]; intros i skip Hno Hskip.
  - destruct skip as [|k]; simpl.
    + by destruct (match_here U r []).
    + pose proof (Hskip 0 ltac:(lia)) as H0. simpl in H0. by rewrite H0.
  - pose proof (no_overlap_tail _ _ _ Hno) as Hno'.
    destruct skip as [|k]; simpl.
    + destruct (match_here U r (c :: s)) as [n|] eqn:E; simpl.
      * rewrite last_cons_option, IH; [by destruct (last_match _ _ _ _)|done|].
        intros j Hj. apply (Hno 0 n (S j)); [done|lia].
      * rewrite IH; [by destruct (last_match _ _ _ _)|done|intros; lia].
    + rewrite IH; [|done|].
      * destruct (last_match U r (S i) s); [done|].
        pose proof (Hskip 0 ltac:(lia)) as H0. simpl in H0. by rewrite H0.
      * intros j Hj. apply (Hskip (S j)). lia.
Qed.

Lemma last_match_none r s : ∀ i,
  last_match U r i s = None ↔
  ∀ q, q ≤ length s → match_here U r (drop q s) = None.
Proof.
  induction s as [|c s IH]; intros i; cbn [last_match].
  - split.
    + intros H q Hq. simpl in Hq. replace q with 0 by lia. simpl.
      by destruct (match_here U r []).
    + intros H. pose proof (H 0 ltac:(done)) as H0. simpl in H0. by rewrite H0.
  - split.
    + destruct (last_match U r (S i) s) eqn:El; [done|].
      intros H [|q] Hq.
      * simpl. by destruct (match_here U r (c :: s)).
      * simpl. eapply IH; [done|]. simpl in Hq. lia.
    + intros H. rewrite (proj2 (IH (S i))).
      * pose proof (H 0 ltac:(lia)) as H0. simpl in H0. by rewrite H0.
      * intros q Hq. apply (H (S q)). simpl. lia.
Qed.

Lemma last_match_of_occurrence r s : ∀ i q n,
  q ≤ length s →
  match_here U r (drop q s) = Some n →
  (∀ q', q < q' → q' ≤ length s → match_here U r (drop q' s) = None) →
  last_match U r i s = Some (i + q, i + q + n).
Proof.
  induction s as [|c s IH]; intros i q n Hq Hm Hlast.
  - simpl in *. replace q with 0 in * by lia. simpl in Hm.
    rewrite Hm. simpl. do 2 f_equal; lia.
  - destruct q as [|q]; cbn [last_match].
    + rewrite (proj2 (last_match_none r s (S i))).
      * simpl in Hm. rewrite Hm. simpl. do 2 f_equal; lia.
      * intros q Hq'. apply (Hlast (S q)); simpl; lia.
    + rewrite (IH (S i) q n); [do 2 f_equal; lia|simpl in Hq; lia|done|].
      intros q' Hq' Hlen. apply (Hlast (S q')); simpl; lia.
Qed.

Lemma last_match_is_occurrence r s : ∀ i p e,
  last_match U r i s = Some (p, e) →
  ∃ q, p = i + q ∧ q ≤ length s ∧ is_Some (match_here U r (drop q s))
       ∧ ∀ q', q < q' → q' ≤ length s → match_here U r (drop q' s) = None.
Proof.
  induction s as [|c s IH]; intros i p e; cbn [last_match].
  - destruct (match_here U r []) as [n|] eqn:E; simpl; [|done].
    intros [= <- <-]. exists 0. split; [lia|]. split; [done|].
    split; [simpl; by rewrite E|]. intros q' Hq' Hlen. simpl in Hlen. lia.
  - destruct (last_match U r (S i) s) as [[p' e']|] eqn:El.
    + intros [= -> ->]. apply IH in El as (q & -> & Hq & Hm & Hlast).
      exists (S q). split; [lia|]. split; [simpl; lia|]. split; [done|].
      intros [|q'] Hq' Hlen; [lia|]. apply Hlast; simpl in Hlen; lia.
    + destruct (match_here U r (c :: s)) as [n|] eqn:E; simpl; [|done].
      intros [= <- <-]. exists 0. split; [lia|]. split; [lia|].
      split; [simpl; by rewrite E|].
      intros [|q'] Hq' Hlen; [lia|]. simpl.
      eapply last_match_none; [done|]. simpl in Hlen. lia.
Qed.
End LastOccurrence.

Section UnicaMarker.
Variable U : UnicodeData.
(** The letter [p] is neither a space nor a digit. *)
Hypothesis p_not_space : isspace U 0x70%N = false.
Hypothesis p_not_digit : decimal U 0x70%N = None.

Lemma unica_start_rx_head :
  items unica_start_rx = Item (Ch 0x70%N) One :: tail (items unica_start_rx).
Proof. reflexivity. Qed.

(** After its first letter, the marker has no place for a [p]. *)
Lemma unica_start_rx_tail :
  Forall (λ it, cls_match U (it_cls it) 0x70%N = false)
    (tail (items unica_start_rx)).
Proof using p_not_space p_not_digit.
  let v := eval vm_compute in (tail (items unica_start_rx)) in
  change (tail (items unica_start_rx)) with v.
  repeat (constructor;
          [first [ done | exact p_not_space
                 | simpl; by rewrite p_not_digit ] |]).
  constructor.
Qed.

Lemma unica_start_rx_no_overlap s : no_overlap U (items unica_start_rx) s.
Proof using p_not_space p_not_digit.
  rewrite unica_start_rx_head.
  apply first_letter_no_overlap, unica_start_rx_tail.
Qed.

(** The source's loop over [finditer] ends on the last occurrence. *)
Lemma unica_finditer_last s :
  last (finditer U unica_start_rx s) = last_match U (items unica_start_rx) 0 s.
Proof using p_not_space p_not_digit.
  apply finditer_go_last; [apply unica_start_rx_no_overlap|]. intros; lia.
Qed.

Lemma unica_data_raw_last text norm p :
  last_occurrence U unica_start_rx norm p →
  unica_data_raw U text norm
  = parse_table_to_columns U text (drop p norm) unica_headers
      (Regex true (items unica_start_rx)) (Some unica_end_rx).
Proof using p_not_space p_not_digit.
  intros [[Hlen [n Hm]] Hlast]. unfold unica_data_raw.
  rewrite unica_finditer_last.
  rewrite (last_match_of_occurrence U _ _ 0 p n); [done..|].
  intros q Hq Hle. destruct (match_here U _ (drop q norm)) eqn:E; [|done].
  destruct (Hlast q Hq). split; [done|]. by rewrite E.
Qed.

End UnicaMarker.

Lemma last_occurrence_of_last_match U rx s p e :
  last_match U (items rx) 0 s = Some (p, e) → last_occurrence U rx s p.
Proof.
  intros (q & -> & Hlen & Hm & Hlast)%last_match_is_occurrence.
  split; [done|]. intros q' Hq' [Hlen' Hm'].
  rewrite Hlast in Hm'; [by destruct Hm'|simpl in Hq'; lia|done].
Qed.


(** Only the later of the two tables gives rows. *)
Example two_unica_tables_rows :
  unica_rows ucd two_unica_tables_text =
  [mk_row (CStr (lit "te3")) (CFloat (dec 10 0))
          (CFloat (dec 125 1)) (CFloat (dec 125 1)) (CFloat (dec 125 1))
          (CFloat (dec 125 1)) (CFloat (dec 125 1)) (CFloat (dec 125 1))].
Proof. vm_compute. reflexivity. Qed.

Lemma columns_to_tarifas_pivot_witness :
  length (columns_to_tarifas ragged_columns) = 2.
Proof.
  apply (columns_to_tarifas_pivot ragged_columns 2).
  - intros h col H. apply max_len_ge in H. exact H.
  - right. exists (lit "TARIFA"), [CStr (lit "te1"); CStr (lit "te2")].
    split; vm_compute; reflexivity.
Defined.

Lemma parse_table_to_columns_rectangular_witness :
  length [CStr (lit "te1")] = length [CFloat (dec 345 0)].
Proof.
  apply (parse_table_to_columns_rectangular ucd scenario_text
           (normalize_text ucd scenario_text) potencia_headers
           potencia_start_rx (Some potencia_end_rx)
           (lit "TARIFA") (lit "POTENCIA CONTRATADA"));
    vm_compute; reflexivity.
Defined.

(** ** Where the cells come from *)

Lemma infix_of_drop n (s : str) : infix_of (drop n s) s.
Proof. exists (take n s), []. by rewrite app_nil_r, take_drop. Qed.

Lemma infix_of_take n (s : str) : infix_of (take n s) s.
Proof. exists [], (drop n s). by rewrite take_drop. Qed.

Lemma infix_of_cons c (s t : str) : infix_of s t → infix_of s (c :: t).
Proof. intros (a & b & ->). by exists (c :: a), b. Qed.

Lemma lstrip_by_infix p s : infix_of (lstrip_by p s) s.
Proof.
  induction s as [|c s IH]; simpl; [apply infix_of_refl|].
  destruct (p c); [by apply infix_of_cons|apply infix_of_refl].
Qed.

Lemma infix_of_reverse (s t : str) :
  infix_of s t → infix_of (reverse s) (reverse t).
Proof.
  intros (a & b & ->). exists (reverse b), (reverse a).
  by rewrite !reverse_app, app_assoc.
Qed.

Lemma strip_by_infix p s : infix_of (strip_by p s) s.
Proof.
  unfold strip_by, rstrip_by. eapply infix_of_trans; [|apply lstrip_by_infix].
  rewrite <- (reverse_involutive (lstrip_by p s)) at 2.
  apply infix_of_reverse, lstrip_by_infix.
Qed.

Lemma prefix_infix_of (s t : str) : s `prefix_of` t → infix_of s t.
Proof. intros [b ->]. by exists [], b. Qed.

(** The first word of a split starts the string, the others lie in it. *)
Lemma split_on_words sep s :
  ∃ w0 ws, split_on sep s = w0 :: ws ∧ (w0 `prefix_of` s) ∧ (sep ∉ w0)
           ∧ ∀ w, w ∈ ws → infix_of w s ∧ sep ∉ w.
Proof.
  induction s as [|c s (w0 & ws & Heq & Hpre & Hsep & Hws)]; simpl.
  - exists [], []. set_solver.
  - rewrite Heq. case_bool_decide as Hc.
    + exists [], (w0 :: ws). split; [done|]. split; [apply prefix_nil|].
      split; [set_solver|]. intros w [->|Hw]%elem_of_cons.
      * split; [|done]. by apply infix_of_cons, prefix_infix_of.
      * destruct (Hws w Hw). split; [by apply infix_of_cons|done].
    + exists (c :: w0), ws. split; [done|]. split; [by apply prefix_cons|].
      split; [set_solver|]. intros w Hw. destruct (Hws w Hw).
      split; [by apply infix_of_cons|done].
Qed.

Lemma split_on_infix sep s w : w ∈ split_on sep s → infix_of w s ∧ sep ∉ w.
Proof.
  destruct (split_on_words sep s) as (w0 & ws & -> & Hpre & Hsep & Hws).
  intros [->|Hw]%elem_of_cons; [|by apply Hws].
  split; [by apply prefix_infix_of|done].
Qed.

Section Provenance.
Variable U : UnicodeData.

Lemma resplit_go_words s : ∀ k,
  ∃ w0 ws, resplit_go U k s = w0 :: ws ∧ (w0 `prefix_of` drop k s)
           ∧ ∀ w, w ∈ ws → infix_of w s.
Proof.
  induction s as [|c s IH]; intros k.
  - exists [], []. destruct k; set_solver.
  - destruct k as [|k]; cbn [resplit_go].
    + case_bool_decide as Hrun.
      * destruct (IH (space_run U (c :: s) - 1)) as (w0 & ws & -> & Hpre & Hws).
        exists [], (w0 :: ws). split; [done|]. split; [apply prefix_nil|].
        intros w [->|Hw]%elem_of_cons; apply infix_of_cons; [|by apply Hws].
        eapply infix_of_trans; [by apply prefix_infix_of|apply infix_of_drop].
      * destruct (IH 0) as (w0 & ws & -> & Hpre & Hws).
        exists (c :: w0), ws. split; [done|].
        split; [by apply prefix_cons|]. intros w Hw. by apply infix_of_cons, Hws.
    + destruct (IH k) as (w0 & ws & -> & Hpre & Hws).
      exists w0, ws. split; [done|]. split; [done|].
      intros w Hw. by apply infix_of_cons, Hws.
Qed.

Lemma split_spaces_infix s w : w ∈ split_spaces U s → infix_of w s.
Proof.
  unfold split_spaces.
  destruct (resplit_go_words s 0) as (w0 & ws & -> & Hpre & Hws).
  intros [->|Hw]%elem_of_cons; [by apply prefix_infix_of|by apply Hws].
Qed.

Lemma strip_infix s : infix_of (strip U s) s.
Proof. apply strip_by_infix. Qed.

Lemma notin_contains_false c (s : str) : contains [c] s = false → c ∉ s.
Proof.
  intros H Hin. apply not_true_iff_false in H. apply H, contains_spec.
  apply list_elem_of_split in Hin as (a & b & ->). by exists a, b.
Qed.

(** The fragments of a line are pieces of it without a bar. *)
Lemma line_parts_infix line p :
  p ∈ line_parts U line → infix_of p line ∧ BAR ∉ p.
Proof.
  unfold line_parts. intros (w & -> & [_ Hw]%list_elem_of_filter)%list_elem_of_fmap.
  assert (infix_of w line ∧ BAR ∉ w) as [Hin Hbar].
  { destruct (contains [BAR] line) eqn:E.
    - by apply split_on_infix.
    - apply split_spaces_infix in Hw. split; [done|].
      eapply infix_of_notin; [done|]. by apply notin_contains_false. }
  split.
  - eapply infix_of_trans; [apply strip_infix|done].
  - eapply infix_of_notin; [apply strip_infix|done].
Qed.

(** A cell that stays a string is the stripped fragment. *)
Lemma clean_and_convert_str p s :
  BAR ∉ p → clean_and_convert U p = CStr s → infix_of s p.
Proof.
  intros Hbar. unfold clean_and_convert.
  rewrite (replace_absent [BAR]) by by apply contains_false_notin.
  case_bool_decide; [done|].
  destruct (float_of_str U _); [done|]. intros [= <-]. apply strip_infix.
Qed.

Lemma cells_from_alter (T : str) (f : list cell → list cell) (h : str)
    (columns : columns_t) :
  (∀ col s, CStr s ∈ f col → CStr s ∈ col ∨ infix_of s T) →
  cells_from T columns → cells_from T (alter f h columns).
Proof.
  intros Hf Hc h' col s. destruct (decide (h = h')) as [<-|Hne].
  - rewrite lookup_alter_eq. destruct (columns !! h) as [c|] eqn:E; [|done].
    intros [= <-] [Hs|Hs]%Hf; [|done]. by eapply Hc.
  - rewrite lookup_alter_ne by done. apply Hc.
Qed.

Lemma append_row_cells (T : str) (parts headers : list str) :
  ∀ idx (columns : columns_t),
  (∀ p, p ∈ parts → infix_of p T ∧ BAR ∉ p) →
  cells_from T columns → cells_from T (append_row U parts idx headers columns).
Proof.
  induction headers as [|h hs IH]; intros idx columns Hparts Hc; simpl; [done|].
  apply IH; [done|]. apply cells_from_alter; [|done].
  intros col s [Hs|Hs%list_elem_of_singleton]%elem_of_app; [by left|right].
  destruct (parts !! idx) as [p|] eqn:E; [|done].
  apply list_elem_of_lookup_2 in E. destruct (Hparts p E) as [Hin Hbar].
  symmetry in Hs. eapply infix_of_trans; [by eapply clean_and_convert_str|done].
Qed.

Lemma process_lines_cells (T : str) (headers lines : list str) :
  ∀ columns : columns_t,
  (∀ line, line ∈ lines → infix_of line T) →
  cells_from T columns →
  cells_from T (foldl (process_line U headers) columns lines).
Proof.
  induction lines as [|l ls IH]; intros columns Hl Hc; simpl; [done|].
  apply IH; [set_solver|]. unfold process_line.
  destruct (skip_line _); [done|]. apply append_row_cells; [|done].
  intros p [Hin Hbar]%line_parts_infix. split; [|done].
  eapply infix_of_trans; [done|]. apply Hl. set_solver.
Qed.

Lemma pad_columns_cells (T : str) (headers : list str) (columns : columns_t) :
  cells_from T columns → cells_from T (pad_columns headers columns).
Proof.
  unfold pad_columns. case_bool_decide as Hem; [done|]. clear Hem.
  generalize (max_len columns). intros n. revert columns.
  induction headers as [|h hs IH]; intros columns Hc; simpl; [done|].
  apply IH, cells_from_alter; [|done].
  intros col s [Hs|Hs%elem_of_replicate]%elem_of_app; [by left|]. by destruct Hs.
Qed.

Lemma empty_columns_cells (T : str) (headers : list str) :
  cells_from T (list_to_map ((λ header : str, (header, [])) <$> headers)).
Proof.
  intros h col s H%elem_of_list_to_map_2.
  apply list_elem_of_fmap in H as (h' & [= -> ->] & _). set_solver.
Qed.

(** The string cells [parse_table_to_columns] returns are pieces of its
    [norm_text]. *)
Lemma parse_table_to_columns_cells orig_text norm_text headers rx end_rx :
  cells_from norm_text
    (parse_table_to_columns U orig_text norm_text headers rx end_rx).
Proof.
  unfold parse_table_to_columns.
  destruct (search U rx norm_text) as [[start_idx ?]|]; [|done].
  set (block := match _ with Some (e, _) => take _ _ | None => drop _ _ end).
  assert (Hblock : infix_of block norm_text).
  { unfold block. destruct (match end_rx with Some _ => _ | None => _ end)
      as [[e ?]|].
    - eapply infix_of_trans; [apply infix_of_take|apply infix_of_drop].
    - apply infix_of_drop. }
  destruct (header_row_index _ _ _) as [i|]; [|done].
  apply pad_columns_cells, process_lines_cells; [|apply empty_columns_cells].
  intros line Hline%subseteq_drop.
  apply split_on_infix in Hline as [Hline _].
  eapply infix_of_trans; [done|].
  eapply infix_of_trans; [apply strip_infix|done].
Qed.
End Provenance.

Lemma cells_from_empty (T : str) : cells_from T ∅.
Proof. intros h col s H. by rewrite lookup_empty in H. Qed.

Lemma cells_from_insert (T : str) (h : str) (col : list cell)
    (columns : columns_t) :
  (∀ s, CStr s ∈ col → infix_of s T) →
  cells_from T columns → cells_from T (<[h := col]> columns).
Proof.
  intros Hcol Hc h' col' s. destruct (decide (h = h')) as [<-|Hne].
  - rewrite lookup_insert_eq. intros [= <-]. apply Hcol.
  - rewrite lookup_insert_ne by done. apply Hc.
Qed.

Lemma cells_from_weaken (T T' : str) (columns : columns_t) :
  infix_of T T' → cells_from T columns → cells_from T' columns.
Proof. intros HT Hc h col s Hl Hs. eapply infix_of_trans; [|done]. eauto. Qed.

Lemma expand_unica_table_cells (T : str) (table_data : columns_t) :
  cells_from T table_data → cells_from T (expand_unica_table table_data).
Proof.
  intros Hc. unfold expand_unica_table.
  destruct (table_data !! lit "P1 - P6") as [pv|] eqn:Epv;
    [|apply cells_from_empty].
  simpl foldl.
  repeat (apply cells_from_insert; [intros s; by apply (Hc _ _ s Epv)|]).
  destruct (table_data !! lit "POTENCIA CONTRATADA") as [c2|] eqn:E2;
    destruct (table_data !! lit "TARIFA") as [c1|] eqn:E1;
    repeat (apply cells_from_insert; [intros s; by eapply Hc|]);
    apply cells_from_empty.
Qed.

Lemma cell_at_str (columns : columns_t) key i s :
  cell_at columns key i = CStr s →
  ∃ col, columns !! key = Some col ∧ CStr s ∈ col.
Proof.
  unfold cell_at. destruct (columns !! key) as [col|]; simpl; [|done].
  destruct (col !! i) as [v|] eqn:E; simpl; [|done].
  intros ->. exists col. split; [done|]. by eapply list_elem_of_lookup_2.
Qed.

(** A string in a row is a string of some column. *)
Lemma columns_to_tarifas_str (columns : columns_t) (row : row_t) key s :
  row ∈ columns_to_tarifas columns → row !! key = Some (CStr s) →
  ∃ h col, columns !! h = Some col ∧ CStr s ∈ col.
Proof.
  intros [i ->%columns_to_tarifas_lookup]%list_elem_of_lookup_1.
  unfold tariff_row. rewrite !field_cell_at. intros H.
  repeat (rewrite lookup_insert in H;
          destruct (decide _);
          [injection H as H; apply cell_at_str in H as [col ?]; eauto|]).
  by rewrite lookup_empty in H.
Qed.

Section CellsOfTheResult.
Variable U : UnicodeData.

(** C3, amended: every string cell of the rows of the three tables is a
    contiguous piece of the normalized text, that is of the lowercased and
    accent-stripped form of the input, not of the input itself. *)
Theorem string_cells_from_normalized_text (text : str) (row : row_t)
    (key s : str) :
  row ∈ potencia_rows U text ∨ row ∈ clasica_base_rows U text
    ∨ row ∈ unica_rows U text →
  row !! key = Some (CStr s) →
  infix_of s (normalize_text U text).
Proof.
  unfold potencia_rows, clasica_base_rows, unica_rows,
    extract_price_tables_from_text; simpl.
  intros Hrow Hkey.
  assert (∃ columns : columns_t,
            cells_from (normalize_text U text) columns
            ∧ row ∈ columns_to_tarifas columns) as (columns & Hc & Hin).
  { destruct Hrow as [H|[H|H]]; eexists; (split; [|exact H]).
    - apply parse_table_to_columns_cells.
    - apply parse_table_to_columns_cells.
    - apply expand_unica_table_cells. unfold unica_data_raw.
      destruct (last _) as [[start ?]|]; [|apply cells_from_empty].
      eapply cells_from_weaken; [apply infix_of_drop|].
      apply parse_table_to_columns_cells. }
  destruct (columns_to_tarifas_str _ _ _ _ Hin Hkey) as (h & col & Hl & Hs).
  by eapply Hc.
Qed.
End CellsOfTheResult.

Lemma string_cells_from_normalized_text_witness :
  infix_of (lit "te1") (normalize_text ucd scenario_text).
Proof.
  apply (string_cells_from_normalized_text ucd scenario_text
           (mk_row (CStr (lit "te1")) (CFloat (dec 345 0))
              (CFloat (dec 12 2)) (CFloat (dec 15 2)) (CFloat (dec 10 2))
              (CFloat (dec 10 2)) (CFloat (dec 15 2)) (CFloat (dec 12 2)))
           (lit "tarifa")).
  - left. vm_compute. left.
  - vm_compute. reflexivity.
Defined.

(** C3 as stated fails: in the scenario the [tarifa] cell is ["te1"],
    which occurs nowhere in the original text (it has ["TE1"]). *)
Lemma string_cell_not_from_original_text :
  ∃ row s, row ∈ potencia_rows ucd scenario_text
           ∧ row !! lit "tarifa" = Some (CStr s)
           ∧ ¬ infix_of s scenario_text.
Proof.
  exists (mk_row (CStr (lit "te1")) (CFloat (dec 345 0))
            (CFloat (dec 12 2)) (CFloat (dec 15 2)) (CFloat (dec 10 2))
            (CFloat (dec 10 2)) (CFloat (dec 15 2)) (CFloat (dec 12 2))),
         (lit "te1").
  split; [vm_compute; left|]. split; [vm_compute; reflexivity|].
  rewrite <- contains_spec. vm_compute. discriminate.
Qed.

(** * Further properties of the code *)

(** ** The normalized text *)

Lemma collapse_go_no_tab b s : TAB ∉ collapse_go b s.
Proof.
  revert b. induction s as [|c s IH]; intros b; simpl; [set_solver|].
  destruct (is_blank c) eqn:E.
  - destruct b; [done|]. apply not_elem_of_cons. split; [done|apply IH].
  - apply not_elem_of_cons. split; [|apply IH].
    intros <-. by vm_compute in E.
Qed.

Lemma starts_with_cons a p b s :
  starts_with (a :: p) (b :: s) = bool_decide (a = b) && starts_with p s.
Proof. done. Qed.

Lemma contains_cons p c s :
  contains p (c :: s) = starts_with p (c :: s) || contains p s.
Proof. done. Qed.

Lemma collapse_go_single_spaces s : ∀ b,
  contains [SP; SP] (collapse_go b s) = false
  ∧ (b = true → starts_with [SP] (collapse_go b s) = false).
Proof.
  induction s as [|c s IH]; intros b; [by destruct b|]. cbn [collapse_go].
  destruct (is_blank c) eqn:E.
  - destruct (IH true) as [Hc Hs]. destruct b; [done|].
    split; [|done].
    rewrite contains_cons, Hc, starts_with_cons, Hs by done.
    by rewrite andb_false_r.
  - destruct (IH false) as [Hc _].
    assert (Hne : bool_decide (SP = c) = false).
    { apply bool_decide_eq_false_2. intros <-. by vm_compute in E. }
    split; [|intros _; by rewrite starts_with_cons, Hne].
    by rewrite contains_cons, Hc, starts_with_cons, Hne.
Qed.

(** X1: the normalized text has no carriage return, no tab and no two
    spaces in a row. *)
Theorem normalize_text_blanks (U : UnicodeData) (s : str) :
  (CR ∉ normalize_text U s)
  ∧ (TAB ∉ normalize_text U s)
  ∧ contains [SP; SP] (normalize_text U s) = false.
Proof.
  split; [apply normalize_text_no_cr|].
  split; [apply collapse_go_no_tab|apply collapse_go_single_spaces].
Qed.

(** ** Titles *)

Section Titles.
Variable U : UnicodeData.

Lemma clean_title_nonempty rx line t : clean_title U rx line = Some t → t ≠ [].
Proof.
  unfold clean_title. case_bool_decide; [done|]. by intros [= <-].
Qed.

Lemma clean_title_infix rx line t :
  clean_title U rx line = Some t → infix_of t line.
Proof.
  unfold clean_title.
  set (cleaned := strip U (strip_by _ (strip_by _ (strip U line)))).
  assert (Hcl : infix_of cleaned line).
  { unfold cleaned, strip.
    repeat (eapply infix_of_trans; [apply strip_by_infix|]).
    apply infix_of_refl. }
  case_bool_decide; [done|]. intros [= <-].
  destruct (contains [BAR] cleaned); [|done].
  destruct (filter _ _) as [|part parts] eqn:E; [done|].
  assert (Hin : part ∈ part :: parts) by left.
  rewrite <- E in Hin. apply list_elem_of_filter in Hin as [_ Hin].
  apply list_elem_of_fmap in Hin as (w & -> & [_ Hw]%list_elem_of_filter).
  apply split_on_infix in Hw as [Hw _].
  eapply infix_of_trans; [apply strip_infix|].
  eapply infix_of_trans; [apply strip_infix|].
  by eapply infix_of_trans.
Qed.

Lemma title_of_lines_some rx lines t :
  title_of_lines U rx lines = Some t →
  ∃ line, line ∈ lines ∧ clean_title U rx line = Some t.
Proof.
  induction lines as [|line lines IH]; simpl; [done|].
  case_bool_decide.
  - intros Ht. exists line. split; [left|done].
  - intros (l & Hl & Ht)%IH. exists l. split; [by right|done].
Qed.

Lemma title_of_lines_none rx (lines : list str) :
  (∀ line, line ∈ lines → search U rx (normalize_text U line) = None) →
  title_of_lines U rx lines = None.
Proof.
  induction lines as [|line lines IH]; intros H; simpl; [done|].
  rewrite (H line) by left. rewrite bool_decide_eq_false_2.
  - apply IH. intros l Hl. apply H. by right.
  - by intros [? ?].
Qed.

Lemma find_title_line_nonempty orig_text rx t :
  find_title_line U orig_text rx = Some t → t ≠ [].
Proof.
  unfold find_title_line. case_bool_decide; [done|].
  intros (line & _ & Ht)%title_of_lines_some. by eapply clean_title_nonempty.
Qed.

(** X4: a title that is found is not empty, has no line break, and is a
    piece of the original text (with its line ends unified), case and
    accents as written. *)
Theorem find_title_line_original (orig_text : str) (rx : regex) (t : str) :
  find_title_line U orig_text rx = Some t →
  t ≠ [] ∧ (LF ∉ t)
  ∧ infix_of t (replace [CR] [LF] (replace [CR; LF] [LF] orig_text)).
Proof.
  unfold find_title_line. case_bool_decide; [done|].
  intros (line & Hline & Ht)%title_of_lines_some.
  apply split_on_infix in Hline as [Hin Hlf].
  pose proof (clean_title_infix _ _ _ Ht) as Hpiece.
  split; [by eapply clean_title_nonempty|].
  split; [by eapply infix_of_notin|by eapply infix_of_trans].
Qed.

(** X3: when the normalized form of no line matches a table's title
    pattern, that table's [titulo] is its default. *)
Theorem titulo_fallback (text : str) :
  let lines := split_on LF (replace [CR] [LF] (replace [CR; LF] [LF] text)) in
  let result := extract_price_tables_from_text U text in
  ((∀ line, line ∈ lines →
      search U potencia_title_rx (normalize_text U line) = None) →
   titulo (tabla_precio_potencia (termino_de_potencia result))
   = default_titulo_potencia)
  ∧ ((∀ line, line ∈ lines →
        search U clasica_base_title_rx (normalize_text U line) = None) →
     titulo (tabla_precio_clasica_base (termino_de_energia result))
     = default_titulo_base)
  ∧ ((∀ line, line ∈ lines →
        search U unica_start_rx (normalize_text U line) = None) →
     titulo (tabla_precio_clasica_unica (termino_de_energia result))
     = default_titulo_unica).
Proof.
  simpl. unfold find_title_line.
  repeat split; intros H; case_bool_decide; try done;
    by rewrite title_of_lines_none.
Qed.

(** X2: the [titulo] of each of the three tables is never empty. *)
Theorem titulo_nonempty (text : str) :
  let result := extract_price_tables_from_text U text in
  titulo (tabla_precio_potencia (termino_de_potencia result)) ≠ []
  ∧ titulo (tabla_precio_clasica_base (termino_de_energia result)) ≠ []
  ∧ titulo (tabla_precio_clasica_unica (termino_de_energia result)) ≠ [].
Proof.
  simpl. repeat split.
  all: match goal with
       | |- default _ (find_title_line U ?x ?rx) ≠ [] =>
           destruct (find_title_line U x rx) as [t|] eqn:E; simpl;
           [by apply find_title_line_nonempty in E|done]
       end.
Qed.
End Titles.

Lemma titulo_fallback_witness :
  titulo (tabla_precio_potencia
            (termino_de_potencia (extract_price_tables_from_text ucd scenario_text)))
  = default_titulo_potencia.
Proof.
  apply (titulo_fallback ucd scenario_text).
  intros line Hline. vm_compute in Hline.
  repeat (apply elem_of_cons in Hline as [->|Hline]; [vm_compute; reflexivity|]).
  by apply elem_of_nil in Hline.
Defined.

Lemma find_title_line_original_witness :
  lit "Precios" ≠ [] ∧ (LF ∉ lit "Precios")
  ∧ infix_of (lit "Precios")
      (replace [CR] [LF] (replace [CR; LF] [LF] (lit "## Precios ##"))).
Proof.
  apply (find_title_line_original ucd (lit "## Precios ##")
           (Regex false (L "precios"))).
  vm_compute. reflexivity.
Defined.

(** ** The keys of a parsed table *)

Section ParsedKeys.
Variable U : UnicodeData.

Lemma dom_pad_columns (headers : list str) (columns : columns_t) :
  dom (pad_columns headers columns) = dom columns.
Proof.
  unfold pad_columns. case_bool_decide; [done|].
  generalize (max_len columns). intros n. clear.
  revert columns. induction headers as [|h hs IH]; intros columns; [done|].
  cbn [foldl]. by rewrite IH, dom_alter_L.
Qed.

(** X5: the table [parse_table_to_columns] returns is empty or has
    exactly the headers as keys. *)
Theorem parse_table_to_columns_keys (orig_text norm_text : str)
    (headers : list str) (start_pattern : regex) (end_pattern : option regex) :
  parse_table_to_columns U orig_text norm_text headers
    start_pattern end_pattern = ∅
  ∨ dom (parse_table_to_columns U orig_text norm_text headers
           start_pattern end_pattern) = list_to_set headers.
Proof.
  unfold parse_table_to_columns.
  destruct (search U start_pattern norm_text) as [[start_idx ?]|]; [|by left].
  destruct (header_row_index _ _ _) as [i|]; [|by left].
  right. rewrite dom_pad_columns, dom_process_lines, dom_list_to_map_L.
  by rewrite <- list_fmap_compose, list_fmap_id.
Qed.
End ParsedKeys.

(** ** Rows and columns *)

Lemma tariff_row_lookup (columns : columns_t) n i f K :
  (f, K) ∈ row_fields →
  tariff_row columns n i !! f = Some (cell_at columns K i).
Proof.
  intros Hin. unfold tariff_row. rewrite !field_cell_at.
  generalize (cell_at columns). intros g.
  unfold row_fields in Hin. revert Hin. eval_keys. intros Hin.
  repeat (apply elem_of_cons in Hin as [[= -> ->]|Hin]; [by simplify_map_eq|]).
  by apply elem_of_nil in Hin.
Qed.

(** X9: reading one field of every row gives back the column it was
    read from, when that column has the full length. *)
Theorem columns_to_tarifas_column (columns : columns_t) (f K : str)
    (col : list cell) :
  (f, K) ∈ row_fields →
  columns !! K = Some col →
  length col = max_len columns →
  (.!! f) <$> columns_to_tarifas columns = Some <$> col.
Proof.
  intros Hf Hcol Hlen. apply list_eq. intros i.
  rewrite !list_lookup_fmap.
  destruct (columns_to_tarifas columns !! i) as [row|] eqn:Erow.
  - pose proof (lookup_lt_Some _ _ _ Erow) as Hi.
    rewrite columns_to_tarifas_length, <- Hlen in Hi.
    apply columns_to_tarifas_lookup in Erow as ->. simpl.
    rewrite (tariff_row_lookup _ _ _ _ _ Hf). unfold cell_at. rewrite Hcol. simpl.
    destruct (lookup_lt_is_Some_2 col i Hi) as [v Hv]. by rewrite Hv.
  - apply lookup_ge_None_1 in Erow.
    rewrite columns_to_tarifas_length, <- Hlen in Erow.
    by rewrite (lookup_ge_None_2 col i Erow).
Qed.

Lemma columns_to_tarifas_column_witness :
  (.!! lit "tarifa") <$> columns_to_tarifas ragged_columns
  = Some <$> [CStr (lit "te1"); CStr (lit "te2")].
Proof.
  apply (columns_to_tarifas_column ragged_columns (lit "tarifa") (lit "TARIFA")).
  - vm_compute. left.
  - vm_compute. reflexivity.
  - vm_compute. reflexivity.
Defined.

Lemma expand_unica_table_periods (table_data : columns_t) (K : str) :
  K ∈ [lit "P2"; lit "P3"; lit "P4"; lit "P5"; lit "P6"] →
  expand_unica_table table_data !! K = expand_unica_table table_data !! lit "P1".
Proof.
  intros HK. unfold expand_unica_table.
  destruct (table_data !! lit "P1 - P6") as [pv|]; [|done].
  simpl foldl. revert HK. eval_keys. intros HK.
  repeat (apply elem_of_cons in HK as [->|HK]; [by simplify_map_eq|]).
  by apply elem_of_nil in HK.
Qed.

(** X8: in every row of [tabla_precio_clasica_unica] the six periods
    hold the same value. *)
Theorem unica_rows_equal_periods (U : UnicodeData) (text : str) (row : row_t) :
  row ∈ unica_rows U text →
  row !! lit "P2" = row !! lit "P1" ∧ row !! lit "P3" = row !! lit "P1"
  ∧ row !! lit "P4" = row !! lit "P1" ∧ row !! lit "P5" = row !! lit "P1"
  ∧ row !! lit "P6" = row !! lit "P1".
Proof.
  unfold unica_rows, extract_price_tables_from_text; simpl.
  generalize (unica_data_raw U text (normalize_text U text)). intros table.
  intros [i ->%columns_to_tarifas_lookup]%list_elem_of_lookup_1.
  assert (Hp : ∀ K, K ∈ [lit "P2"; lit "P3"; lit "P4"; lit "P5"; lit "P6"] →
               (K, K) ∈ row_fields ∧ (lit "P1", lit "P1") ∈ row_fields).
  { intros K HK. unfold row_fields. split; set_solver. }
  assert (Heq : ∀ K, K ∈ [lit "P2"; lit "P3"; lit "P4"; lit "P5"; lit "P6"] →
                tariff_row (expand_unica_table table)
                  (max_len (expand_unica_table table)) i !! K
                = tariff_row (expand_unica_table table)
                    (max_len (expand_unica_table table)) i !! lit "P1").
  { intros K HK. destruct (Hp K HK) as [H1 H2].
    rewrite (tariff_row_lookup _ _ _ _ _ H1), (tariff_row_lookup _ _ _ _ _ H2).
    unfold cell_at. by rewrite expand_unica_table_periods. }
  repeat split; apply Heq; set_solver.
Qed.

Lemma unica_rows_equal_periods_witness :
  ∃ row, row ∈ unica_rows ucd unica_table_text
         ∧ row !! lit "P6" = row !! lit "P1".
Proof.
  exists (mk_row (CStr (lit "te3")) (CFloat (dec 10 0))
            (CFloat (dec 125 1)) (CFloat (dec 125 1)) (CFloat (dec 125 1))
            (CFloat (dec 125 1)) (CFloat (dec 125 1)) (CFloat (dec 125 1))).
  assert (Hin : mk_row (CStr (lit "te3")) (CFloat (dec 10 0))
            (CFloat (dec 125 1)) (CFloat (dec 125 1)) (CFloat (dec 125 1))
            (CFloat (dec 125 1)) (CFloat (dec 125 1)) (CFloat (dec 125 1))
          ∈ unica_rows ucd unica_table_text) by (vm_compute; left).
  split; [exact Hin|].
  apply (unica_rows_equal_periods ucd unica_table_text _ Hin).
Defined.

(** ** The first occurrence of a start marker *)

Section FirstOccurrence.
Variable U : UnicodeData.

Lemma search_go_shift r s : ∀ i,
  search_go U r i s = (λ m, (i + m.1, i + m.2)) <$> search_go U r 0 s.
Proof.
  induction s as [|c s IH]; intros i; simpl.
  - destruct (match_here U r []); simpl; [|done]. do 2 f_equal; lia.
  - destruct (match_here U r (c :: s)); simpl; [do 2 f_equal; lia|].
    rewrite (IH (S i)), (IH 1). destruct (search_go U r 0 s) as [[a b]|]; [|done].
    simpl. do 2 f_equal; lia.
Qed.

Lemma search_go_first r s : ∀ q n,
  q ≤ length s →
  match_here U r (drop q s) = Some n →
  (∀ q', q' < q → match_here U r (drop q' s) = None) →
  search_go U r 0 s = Some (q, q + n).
Proof.
  induction s as [|c s IH]; intros q n Hq Hm Hfirst.
  - simpl in *. replace q with 0 in * by lia. simpl in Hm. by rewrite Hm.
  - destruct q as [|q]; cbn [search_go].
    + simpl in Hm. by rewrite Hm.
    + pose proof (Hfirst 0 ltac:(lia)) as H0. simpl in H0. rewrite H0.
      rewrite search_go_shift, (IH q n); [done|simpl in Hq; lia|done|].
      intros q' Hq'. apply (Hfirst (S q')). lia.
Qed.

Lemma search_go_is_first r s : ∀ p e,
  search_go U r 0 s = Some (p, e) →
  p ≤ length s ∧ is_Some (match_here U r (drop p s))
  ∧ ∀ q, q < p → match_here U r (drop q s) = None.
Proof.
  induction s as [|c s IH]; intros p e; cbn [search_go].
  - destruct (match_here U r []) eqn:E; [|done]. intros [= <- <-].
    split; [done|]. split; [simpl; by rewrite E|]. intros; lia.
  - destruct (match_here U r (c :: s)) eqn:E.
    + intros [= <- <-]. split; [simpl; lia|].
      split; [simpl; by rewrite E|]. intros; lia.
    + rewrite search_go_shift.
      destruct (search_go U r 0 s) as [[a b]|] eqn:Es; [|done].
      intros [= <- <-]. destruct (IH a b eq_refl) as (Ha & Hm & Hfirst).
      split; [simpl; lia|]. split; [done|].
      intros [|q] Hq; [done|]. apply Hfirst. simpl in Hq. lia.
Qed.

Lemma first_occurrence_of_search rx s p e :
  bol rx = false → search U rx s = Some (p, e) → first_occurrence U rx s p.
Proof.
  unfold search, search_from. intros ->. rewrite drop_0.
  intros (Hp & Hm & Hfirst)%search_go_is_first.
  split; [done|]. intros q Hq [_ Hmq]. rewrite Hfirst in Hmq by done.
  by destruct Hmq.
Qed.

(** X7: [parse_table_to_columns] reads the text from the first
    occurrence of the start marker on: two texts that agree from there on
    give the same table, whatever precedes the marker. *)
Theorem parse_table_to_columns_from_first_occurrence
    (orig1 orig2 norm1 norm2 : str) (headers : list str)
    (start_pattern : regex) (end_pattern : option regex) (p1 p2 : nat) :
  bol start_pattern = false →
  (∀ rx, end_pattern = Some rx → bol rx = false) →
  first_occurrence U start_pattern norm1 p1 →
  first_occurrence U start_pattern norm2 p2 →
  drop p1 norm1 = drop p2 norm2 →
  parse_table_to_columns U orig1 norm1 headers start_pattern end_pattern
  = parse_table_to_columns U orig2 norm2 headers start_pattern end_pattern.
Proof.
  intros Hbol Hend [[Hp1 [n1 Hm1]] Hf1] [[Hp2 [n2 Hm2]] Hf2] Heq.
  assert (Hs : ∀ norm p n,
             p ≤ length norm →
             match_here U (items start_pattern) (drop p norm) = Some n →
             (∀ q, q < p → ¬ matches_at U start_pattern norm q) →
             search U start_pattern norm = Some (p, p + n)).
  { intros norm p n Hp Hm Hf. unfold search, search_from.
    rewrite Hbol, drop_0. apply search_go_first; [done..|].
    intros q Hq. destruct (match_here U _ (drop q norm)) eqn:E; [|done].
    destruct (Hf q Hq). split; [lia|]. by rewrite E. }
  unfold parse_table_to_columns.
  rewrite (Hs norm1 p1 n1), (Hs norm2 p2 n2) by done.
  assert (Hblock :
    match match end_pattern with
          | Some rx => search_from U rx norm1 p1
          | None => None
          end with
    | Some (end_idx, _) => take (end_idx - p1) (drop p1 norm1)
    | None => drop p1 norm1
    end =
    match match end_pattern with
          | Some rx => search_from U rx norm2 p2
          | None => None
          end with
    | Some (end_idx, _) => take (end_idx - p2) (drop p2 norm2)
    | None => drop p2 norm2
    end).
  { destruct end_pattern as [rx|]; [|done].
    unfold search_from. rewrite (Hend rx eq_refl).
    rewrite (search_go_shift _ _ p1), (search_go_shift _ _ p2), Heq.
    destruct (search_go U (items rx) 0 (drop p2 norm2)) as [[a b]|]; [|done].
    simpl. by replace (p1 + a - p1) with a by lia;
      replace (p2 + a - p2) with a by lia. }
  by rewrite Hblock.
Qed.
End FirstOccurrence.

Lemma parse_table_to_columns_from_first_occurrence_witness :
  parse_table_to_columns ucd []
    (normalize_text ucd (lit "Factura" ++ LF :: scenario_text))
    potencia_headers potencia_start_rx (Some potencia_end_rx)
  = parse_table_to_columns ucd [] (normalize_text ucd scenario_text)
      potencia_headers potencia_start_rx (Some potencia_end_rx).
Proof.
  apply (parse_table_to_columns_from_first_occurrence ucd [] []
           _ _ potencia_headers potencia_start_rx (Some potencia_end_rx) 8 0).
  - reflexivity.
  - by intros rx [= <-].
  - apply (first_occurrence_of_search _ _ _ _ 40); vm_compute; reflexivity.
  - apply (first_occurrence_of_search _ _ _ _ 32); vm_compute; reflexivity.
  - vm_compute. reflexivity.
Defined.

(** ** The upload layer *)

Lemma rsplit1_no_sep sep s : sep ∉ s → rsplit1 sep s = [s].
Proof.
  induction s as [|c s IH]; intros Hs; [done|]. simpl.
  rewrite IH by set_solver. rewrite bool_decide_eq_false_2; [done|].
  intros ->. set_solver.
Qed.

Lemma rsplit1_last sep stem ext :
  sep ∉ ext → rsplit1 sep (stem ++ sep :: ext) = [stem; ext].
Proof.
  intros Hext. induction stem as [|c stem IH]; simpl.
  - rewrite rsplit1_no_sep by done. by rewrite bool_decide_eq_true_2.
  - by rewrite IH.
Qed.

(** X12: [allowed_file] accepts exactly the names whose part after the
    last dot is [pdf] or [zip] once lowercased; a name without a dot is
    refused. *)
Theorem allowed_file_spec (U : UnicodeData) (filename : str) :
  allowed_file U filename = true ↔
  ∃ stem ext, filename = stem ++ DOT :: ext ∧ (DOT ∉ ext)
              ∧ (lower U ext = lit "pdf" ∨ lower U ext = lit "zip").
Proof.
  unfold allowed_file. rewrite andb_true_iff, bool_decide_eq_true. split.
  - intros [Hdot Hext]. apply contains_spec in Hdot as (a & b & ->).
    assert (Hin : DOT ∈ a ++ [DOT] ++ b) by set_solver.
    apply list_elem_of_split_r in Hin as (stem & ext & Heq & Hno).
    rewrite Heq in *. rewrite rsplit1_last in Hext by done. simpl in Hext.
    exists stem, ext. split; [done|]. split; [done|].
    unfold ALLOWED_EXTENSIONS in Hext. set_solver.
  - intros (stem & ext & -> & Hno & Hext). split.
    + apply contains_spec. by exists stem, ext.
    + rewrite rsplit1_last by done. simpl.
      unfold ALLOWED_EXTENSIONS. set_solver.
Qed.

(** X13: a text in which none of the three start markers matches does
    not count as an extraction: [has_any] is false on its result. *)
Theorem has_any_needs_marker (U : UnicodeData) (text : str) :
  search U potencia_start_rx (normalize_text U text) = None →
  search U clasica_base_start_rx (normalize_text U text) = None →
  search U unica_start_rx (normalize_text U text) = None →
  has_any (extract_price_tables_from_text U text) = false.
Proof.
  intros H1 H2 H3.
  unfold has_any, extract_price_tables_from_text; simpl.
  unfold parse_table_to_columns, unica_data_raw.
  by rewrite H1, H2, finditer_none.
Qed.

Lemma has_any_needs_marker_witness :
  has_any (extract_price_tables_from_text ucd (lit "Factura de la luz")) = false.
Proof.
  apply has_any_needs_marker; vm_compute; reflexivity.
Defined.

(** ** Cells that stay text *)

Section TextCells.
Variable U : UnicodeData.
Variable P : cell → Prop.
Hypothesis P_none : P CNone.

Lemma cells_all_empty : cells_all P ∅.
Proof. intros h col v H. by rewrite lookup_empty in H. Qed.

Lemma cells_all_alter (f : list cell → list cell) (h : str)
    (columns : columns_t) :
  (∀ col v, v ∈ f col → v ∈ col ∨ P v) →
  cells_all P columns → cells_all P (alter f h columns).
Proof.
  intros Hf Hc h' col v. destruct (decide (h = h')) as [<-|Hne].
  - rewrite lookup_alter_eq. destruct (columns !! h) as [c|] eqn:E; [|done].
    intros [= <-] [Hv|Hv]%Hf; [|done]. by eapply Hc.
  - rewrite lookup_alter_ne by done. apply Hc.
Qed.

Lemma cells_all_insert (h : str) (col : list cell) (columns : columns_t) :
  (∀ v, v ∈ col → P v) →
  cells_all P columns → cells_all P (<[h := col]> columns).
Proof.
  intros Hcol Hc h' col' v. destruct (decide (h = h')) as [<-|Hne].
  - rewrite lookup_insert_eq. intros [= <-]. apply Hcol.
  - rewrite lookup_insert_ne by done. apply Hc.
Qed.

Lemma append_row_all (parts headers : list str) :
  ∀ idx (columns : columns_t),
  (∀ p, p ∈ parts → P (clean_and_convert U p)) →
  cells_all P columns → cells_all P (append_row U parts idx headers columns).
Proof using P_none.
  induction headers as [|h hs IH]; intros idx columns Hparts Hc; simpl; [done|].
  apply IH; [done|]. apply cells_all_alter; [|done].
  intros col v [Hv|Hv%list_elem_of_singleton]%elem_of_app; [by left|right].
  subst v. destruct (parts !! idx) as [p|] eqn:E; [|done].
  apply Hparts. by eapply list_elem_of_lookup_2.
Qed.

Lemma process_lines_all (headers lines : list str) :
  ∀ columns : columns_t,
  (∀ line p, line ∈ lines → p ∈ line_parts U line →
             P (clean_and_convert U p)) →
  cells_all P columns →
  cells_all P (foldl (process_line U headers) columns lines).
Proof using P_none.
  induction lines as [|l ls IH]; intros columns Hl Hc; simpl; [done|].
  apply IH; [intros line p Hline; apply Hl; by right|]. unfold process_line.
  destruct (skip_line _); [done|]. apply append_row_all; [|done].
  intros p Hp. apply (Hl l); [left|done].
Qed.

Lemma pad_columns_all (headers : list str) (columns : columns_t) :
  cells_all P columns → cells_all P (pad_columns headers columns).
Proof using P_none.
  unfold pad_columns. case_bool_decide as Hem; [done|]. clear Hem.
  generalize (max_len columns). intros n. revert columns.
  induction headers as [|h hs IH]; intros columns Hc; simpl; [done|].
  apply IH, cells_all_alter; [|done].
  intros col v [Hv|[-> _]%elem_of_replicate]%elem_of_app; [by left|by right].
Qed.

Lemma parse_table_to_columns_all orig_text norm_text (headers : list str)
    rx end_rx :
  (∀ line p, LF ∉ line → p ∈ line_parts U line → P (clean_and_convert U p)) →
  cells_all P (parse_table_to_columns U orig_text norm_text headers rx end_rx).
Proof using P_none.
  intros Hp. unfold parse_table_to_columns.
  destruct (search U rx norm_text) as [[start_idx ?]|]; [|apply cells_all_empty].
  destruct (header_row_index _ _ _) as [i|]; [|apply cells_all_empty].
  apply pad_columns_all, process_lines_all.
  - intros line p Hline%subseteq_drop. apply Hp.
    by apply split_on_infix in Hline as [_ Hline].
  - intros h col v H%elem_of_list_to_map_2.
    apply list_elem_of_fmap in H as (h' & [= -> ->] & _). set_solver.
Qed.

Lemma expand_unica_table_all (table_data : columns_t) :
  cells_all P table_data → cells_all P (expand_unica_table table_data).
Proof.
  intros Hc. unfold expand_unica_table.
  destruct (table_data !! lit "P1 - P6") as [pv|] eqn:Epv;
    [|apply cells_all_empty].
  simpl foldl.
  repeat (apply cells_all_insert; [intros v; by apply (Hc _ _ v Epv)|]).
  destruct (table_data !! lit "POTENCIA CONTRATADA") as [c2|] eqn:E2;
    destruct (table_data !! lit "TARIFA") as [c1|] eqn:E1;
    repeat (apply cells_all_insert; [intros v; by eapply Hc|]);
    apply cells_all_empty.
Qed.

Lemma columns_to_tarifas_all (columns : columns_t) (row : row_t) key v :
  cells_all P columns →
  row ∈ columns_to_tarifas columns → row !! key = Some v → P v.
Proof using P_none.
  intros Hc [i ->%columns_to_tarifas_lookup]%list_elem_of_lookup_1.
  unfold tariff_row. rewrite !field_cell_at. intros H.
  assert (Hcell : ∀ K, P (cell_at columns K i)).
  { intros K. unfold cell_at. destruct (columns !! K) as [col|] eqn:E; [|done].
    simpl. destruct (col !! i) as [x|] eqn:Ex; [|done]. simpl.
    eapply Hc; [done|]. by eapply list_elem_of_lookup_2. }
  repeat (rewrite lookup_insert in H;
          destruct (decide _); [injection H as <-; apply Hcell|]).
  by rewrite lookup_empty in H.
Qed.
End TextCells.

Lemma clean_and_convert_text_cell U line p :
  LF ∉ line → p ∈ line_parts U line → text_cell U (clean_and_convert U p).
Proof.
  intros Hlf [Hin Hbar]%line_parts_infix.
  unfold clean_and_convert.
  rewrite (replace_absent [BAR]) by by apply contains_false_notin.
  case_bool_decide as Hdash; [done|].
  destruct (float_of_str U _) eqn:Ef; [done|]. simpl.
  pose proof (strip_infix U p) as Hs.
  repeat split.
  - intros E. apply Hdash. rewrite E. set_solver.
  - intros E. apply Hdash. rewrite E. set_solver.
  - intros E. apply Hdash. rewrite E. set_solver.
  - by eapply infix_of_notin.
  - eapply infix_of_notin; [done|]. by eapply infix_of_notin.
  - done.
Qed.

(** X11: a cell returned as text is never empty and never a lone hyphen
    or em-dash, holds no bar and no line break, and is not a numeral
    [float] would accept after the separators are rewritten. *)
Theorem text_cells_of_the_result (U : UnicodeData) (text : str)
    (row : row_t) (key s : str) :
  row ∈ potencia_rows U text ∨ row ∈ clasica_base_rows U text
    ∨ row ∈ unica_rows U text →
  row !! key = Some (CStr s) →
  s ≠ [] ∧ s ≠ [HYPHEN] ∧ s ≠ [EMDASH] ∧ (BAR ∉ s) ∧ (LF ∉ s)
  ∧ float_of_str U (replace [COMMA] [DOT] (replace [DOT] [] s)) = None.
Proof.
  unfold potencia_rows, clasica_base_rows, unica_rows,
    extract_price_tables_from_text; simpl.
  intros Hrow Hkey.
  assert (Hparse : ∀ o n hs rx e,
            cells_all (text_cell U) (parse_table_to_columns U o n hs rx e)).
  { intros. apply parse_table_to_columns_all; [done|].
    intros line p. apply clean_and_convert_text_cell. }
  change (text_cell U (CStr s)).
  destruct Hrow as [H|[H|H]];
    eapply (columns_to_tarifas_all (text_cell U) I _ _ _ _ _ H Hkey).
  Unshelve.
  - apply Hparse.
  - apply Hparse.
  - apply expand_unica_table_all. unfold unica_data_raw.
    destruct (last _) as [[start ?]|]; [apply Hparse|by apply cells_all_empty].
Qed.

Lemma text_cells_of_the_result_witness :
  lit "te1" ≠ [] ∧ lit "te1" ≠ [HYPHEN] ∧ lit "te1" ≠ [EMDASH]
  ∧ (BAR ∉ lit "te1") ∧ (LF ∉ lit "te1")
  ∧ float_of_str ucd (replace [COMMA] [DOT] (replace [DOT] [] (lit "te1")))
    = None.
Proof.
  apply (text_cells_of_the_result ucd scenario_text
           (mk_row (CStr (lit "te1")) (CFloat (dec 345 0))
              (CFloat (dec 12 2)) (CFloat (dec 15 2)) (CFloat (dec 10 2))
              (CFloat (dec 10 2)) (CFloat (dec 15 2)) (CFloat (dec 12 2)))
           (lit "tarifa")).
  - left. vm_compute. left.
  - vm_compute. reflexivity.
Defined.

(** ** Numerals in the European convention *)

Lemma replace_delete_char (c : char) (s : list char) :
  replace [c] [] s = filter (λ x, x ≠ c) s.
Proof.
  induction s as [|a s IH]; [done|].
  rewrite replace_cons, starts_with_cons. simpl starts_with.
  rewrite andb_true_r, drop_0, IH, filter_cons.
  case_bool_decide as E; case_decide as E'; simpl; try done; congruence.
Qed.

Lemma replace_map_char (a b : char) (s : list char) :
  replace [a] [b] s = (λ x, if bool_decide (x = a) then b else x) <$> s.
Proof.
  induction s as [|c s IH]; [done|].
  rewrite replace_cons, starts_with_cons. simpl starts_with.
  rewrite andb_true_r, drop_0, IH, fmap_cons.
  repeat case_bool_decide; simpl; try done; congruence.
Qed.

Lemma lstrip_by_head p (c : char) (s : list char) :
  p c = false → lstrip_by p (c :: s) = c :: s.
Proof. intros H. simpl. by rewrite H. Qed.

Lemma strip_by_ends p (c : char) (s : list char) (c' : char) :
  p c = false → p c' = false → last (c :: s) = Some c' →
  strip_by p (c :: s) = c :: s.
Proof.
  intros Hc Hc' Hlast. unfold strip_by, rstrip_by.
  rewrite lstrip_by_head by done.
  apply last_Some in Hlast as [l' Hl]. rewrite Hl, reverse_snoc.
  rewrite lstrip_by_head by done. by rewrite <- reverse_snoc, reverse_involutive.
Qed.

Lemma digit_char_cases (Q : char → Prop) (d : N) :
  d ∈ digits10 → Forall Q (numeral digits10) → Q (digit_char d).
Proof.
  intros Hd HQ. rewrite Forall_forall in HQ. apply HQ.
  unfold numeral. by apply list_elem_of_fmap_2.
Qed.

Lemma digit_char_facts (d : N) :
  d ∈ digits10 →
  digit_char d ≠ PLUS ∧ digit_char d ≠ HYPHEN ∧ digit_char d ≠ BAR
  ∧ digit_char d ≠ DOT ∧ digit_char d ≠ COMMA
  ∧ ascii_lower (digit_char d) ≠ 0x69%N ∧ ascii_lower (digit_char d) ≠ 0x6E%N.
Proof.
  intros Hd.
  apply (digit_char_cases
           (λ c, c ≠ PLUS ∧ c ≠ HYPHEN ∧ c ≠ BAR ∧ c ≠ DOT ∧ c ≠ COMMA
                 ∧ ascii_lower c ≠ 0x69%N ∧ ascii_lower c ≠ 0x6E%N) d Hd).
  vm_compute. repeat (constructor; [repeat split; discriminate|]). constructor.
Qed.

Lemma numeral_filter_dot (b : list N) :
  Forall (.∈ digits10) b →
  filter (λ x, x ≠ DOT) (numeral b) = numeral b.
Proof.
  induction 1 as [|d b Hd _ IH]; [done|].
  change (numeral (d :: b)) with (digit_char d :: numeral b).
  destruct (digit_char_facts d Hd) as (_ & _ & _ & Hdot & _).
  by rewrite filter_cons_True, IH.
Qed.

Lemma numeral_map_comma (b : list N) :
  Forall (.∈ digits10) b →
  (λ x, if bool_decide (x = COMMA) then DOT else x) <$> numeral b = numeral b.
Proof.
  induction 1 as [|d b Hd _ IH]; [done|].
  change (numeral (d :: b)) with (digit_char d :: numeral b).
  destruct (digit_char_facts d Hd) as (_ & _ & _ & _ & Hcomma & _).
  by rewrite fmap_cons, IH, bool_decide_eq_false_2.
Qed.

Lemma numeral_last (b : list N) :
  b ≠ [] → Forall (.∈ digits10) b →
  ∃ e, e ∈ digits10 ∧ last (numeral b) = Some (digit_char e).
Proof.
  intros Hb Hall. destruct b as [|e b]; [done|].
  exists (default e (last b)). split.
  - rewrite Forall_forall in Hall. apply Hall, last_Some_elem_of.
    apply last_cons_option.
  - unfold numeral. by rewrite fmap_last, last_cons_option.
Qed.

Section Numerals.
Variable U : UnicodeData.
Hypothesis HU : ascii_numerals U.

Lemma decimal_digit d : d ∈ digits10 → decimal U (digit_char d) = Some d.
Proof using HU.
  destruct HU as [H _]. rewrite Forall_forall in H. intros Hd. by apply H.
Qed.

Lemma isspace_digit d : d ∈ digits10 → isspace U (digit_char d) = false.
Proof using HU.
  destruct HU as [H _]. rewrite Forall_forall in H. intros Hd. by apply H.
Qed.

Lemma digits_go_numeral ds : ∀ m n r,
  Forall (.∈ digits10) ds →
  digits_go U m n (numeral ds ++ r)
  = digits_go U (foldl (λ m d, 10 * m + Z.of_N d)%Z m ds) (n + length ds) r.
Proof using HU.
  induction ds as [|d ds IH]; intros m n r Hds.
  - simpl. by rewrite Nat.add_0_r.
  - apply Forall_cons in Hds as [Hd Hds].
    change (numeral (d :: ds) ++ r) with (digit_char d :: (numeral ds ++ r)).
    cbn [digits_go]. rewrite decimal_digit by done.
    rewrite IH by done. cbn [foldl length]. f_equal. lia.
Qed.

Lemma digits_go_dot m n r : digits_go U m n (DOT :: r) = (m, n, DOT :: r).
Proof using HU.
  destruct HU as (_ & Hdot & _). cbn [digits_go]. by rewrite Hdot.
Qed.

Lemma digitpart_numeral d ds r :
  Forall (.∈ digits10) (d :: ds) →
  digitpart U (numeral (d :: ds) ++ r)
  = Some (digits_go U (digits_value (d :: ds)) (length (d :: ds)) r).
Proof using HU.
  intros [Hd Hds]%Forall_cons.
  change (numeral (d :: ds) ++ r) with (digit_char d :: (numeral ds ++ r)).
  unfold digitpart. rewrite decimal_digit by done.
  rewrite digits_go_numeral by done. unfold digits_value. cbn [foldl length].
  by replace (10 * 0 + Z.of_N d)%Z with (Z.of_N d) by lia.
Qed.

(** The float of a numeral with a point. *)
Lemma float_of_str_numeral (a b : list N) :
  Forall (.∈ digits10) a → Forall (.∈ digits10) b → a ≠ [] → b ≠ [] →
  float_of_str U (numeral a ++ DOT :: numeral b)
  = Some (FNum (Qred (inject_Z (digits_value (a ++ b))
                      * Qpower (10 # 1) (- Z.of_nat (length b))))).
Proof using HU.
  intros Ha Hb Hane Hbne.
  destruct (numeral_last b Hbne Hb) as (e' & He' & Hlast).
  destruct a as [|d a]; [done|].
  pose proof Ha as [Hd _]%Forall_cons.
  destruct (digit_char_facts d Hd) as (Hplus & Hhyp & _ & _ & _ & Hi & Hn).
  assert (Hl : last (digit_char d :: (numeral a ++ DOT :: numeral b))
               = Some (digit_char e')).
  { change (digit_char d :: (numeral a ++ DOT :: numeral b))
      with ((digit_char d :: numeral a) ++ [DOT] ++ numeral b).
    by rewrite !last_app, Hlast. }
  unfold float_of_str, strip.
  change (numeral (d :: a) ++ DOT :: numeral b)
    with (digit_char d :: (numeral a ++ DOT :: numeral b)).
  rewrite (strip_by_ends _ _ _ (digit_char e'));
    [|by apply isspace_digit..|done].
  assert (Hsign : parse_sign (digit_char d :: (numeral a ++ DOT :: numeral b))
                  = (false, digit_char d :: (numeral a ++ DOT :: numeral b))).
  { unfold parse_sign. by rewrite !bool_decide_eq_false_2. }
  rewrite Hsign.
  rewrite bool_decide_eq_false_2
    by (rewrite fmap_cons; intros [H|H]; by injection H).
  rewrite bool_decide_eq_false_2
    by (rewrite fmap_cons; intros H; by injection H).
  unfold parse_number.
  change (digit_char d :: (numeral a ++ DOT :: numeral b))
    with (numeral (d :: a) ++ DOT :: numeral b).
  rewrite digitpart_numeral, digits_go_dot by done.
  rewrite bool_decide_eq_true_2 by done.
  assert (Hdp : ∃ x, digitpart U (numeral b) = Some x).
  { destruct b as [|e b]; [done|]. rewrite <- (app_nil_r (numeral (e :: b))).
    rewrite digitpart_numeral by done. eauto. }
  destruct Hdp as ([[? ?] ?] & ->).
  rewrite <- (app_nil_r (numeral b)), digits_go_numeral by done.
  cbn [digits_go parse_exponent].
  replace (0 - Z.of_nat (0 + length b))%Z with (- Z.of_nat (length b))%Z by lia.
  unfold digits_value. by rewrite foldl_app.
Qed.

End Numerals.

Lemma ascii_numerals_ucd : ascii_numerals ucd.
Proof.
  split; [|done]. vm_compute. repeat (constructor; [done|]). constructor.
Qed.


(** ** The columns in closed form *)

Section ClosedForm.
Variable U : UnicodeData.

Lemma append_row_lookup_notin (parts headers : list str) :
  ∀ idx (columns : columns_t) (h : str),
  h ∉ headers → append_row U parts idx headers columns !! h = columns !! h.
Proof.
  induction headers as [|h0 hs IH]; intros idx columns h Hh; [done|].
  cbn [append_row]. rewrite IH by set_solver.
  apply lookup_alter_ne. set_solver.
Qed.

Lemma append_row_lookup (parts headers : list str) :
  NoDup headers →
  ∀ idx (columns : columns_t) j (h : str),
  headers !! j = Some h →
  append_row U parts idx headers columns !! h
  = (λ col, col ++ [cell_of U parts (idx + j)]) <$> columns !! h.
Proof.
  induction 1 as [|h0 hs Hnotin Hnd IH]; intros idx columns j h Hj; [done|].
  cbn [append_row]. destruct j as [|j]; simpl in Hj.
  - injection Hj as ->. rewrite append_row_lookup_notin by done.
    rewrite lookup_alter_eq, Nat.add_0_r. done.
  - rewrite (IH (S idx) _ j h Hj).
    rewrite lookup_alter_ne.
    + by replace (S idx + j) with (idx + S j) by lia.
    + intros ->. apply Hnotin. by eapply list_elem_of_lookup_2.
Qed.

Lemma process_lines_lookup (headers : list str) :
  NoDup headers →
  ∀ (lines : list str) (columns : columns_t) j (h : str),
  headers !! j = Some h →
  foldl (process_line U headers) columns lines !! h
  = (λ col, col ++ ((λ line, cell_of U (line_parts U line) j) <$>
                    filter (λ line, skip_line (line_parts U line) = false)
                      lines))
    <$> columns !! h.
Proof.
  intros Hnd lines. induction lines as [|l ls IH]; intros columns j h Hj.
  - simpl. destruct (columns !! h); simpl; [|done]. by rewrite app_nil_r.
  - cbn [foldl]. rewrite (IH _ j h Hj), filter_cons. unfold process_line.
    destruct (skip_line (line_parts U l)) eqn:E.
    + by rewrite decide_False by done.
    + rewrite decide_True by done.
      rewrite (append_row_lookup _ _ Hnd 0 _ j h Hj).
      destruct (columns !! h); simpl; [|done].
      by rewrite <- app_assoc.
Qed.

Lemma pad_columns_rectangular (headers : list str) (columns : columns_t) n :
  (∀ h col, columns !! h = Some col → length col = n) →
  pad_columns headers columns = columns.
Proof.
  intros Hlen. unfold pad_columns. case_bool_decide as Hem; [done|].
  destruct (max_len_attained columns Hem) as (h0 & col0 & Hcol0 & Hmax).
  rewrite <- Hmax, (Hlen _ _ Hcol0).
  apply map_eq. intros h. rewrite foldl_alter_lookup.
  - destruct (decide (h ∈ headers)); [|done].
    destruct (columns !! h) as [col|] eqn:E; [|done]. simpl.
    rewrite (Hlen _ _ E), Nat.sub_diag. by rewrite app_nil_r.
  - intros col.
    match goal with
    | |- _ ++ replicate ?k _ = _ => replace k with 0; [apply app_nil_r|]
    end.
    rewrite length_app, length_replicate. lia.
Qed.

(** X6: with headers that are all different, the column of the [j]-th
    header holds, for each data line that is neither empty nor a separator
    and in their order, the converted [j]-th fragment of the line, or
    [None] when the line has no such fragment; a table whose marker or
    header row is missing has no column. *)
Theorem parse_table_to_columns_closed_form (orig_text norm_text : str)
    (headers : list str) (start_pattern : regex) (end_pattern : option regex)
    (j : nat) (h : str) :
  NoDup headers →
  headers !! j = Some h →
  parse_table_to_columns U orig_text norm_text headers
    start_pattern end_pattern !! h
  = (λ lines : list str,
       (λ line, cell_of U (line_parts U line) j) <$>
       filter (λ line, skip_line (line_parts U line) = false) lines)
    <$> data_lines U norm_text headers start_pattern end_pattern.
Proof.
  intros Hnd Hj. unfold parse_table_to_columns, data_lines.
  destruct (search U start_pattern norm_text) as [[start_idx ?]|]; [|done].
  destruct (header_row_index _ _ _) as [i|]; [|done]. simpl.
  set (init := list_to_map ((λ header : str, (header, [])) <$> headers)
               : columns_t).
  set (lines := drop (i + 1) _).
  assert (Hinit : ∀ k (h' : str), headers !! k = Some h' → init !! h' = Some []).
  { intros k h' Hk.
    assert (Hs : is_Some (init !! h')).
    { apply elem_of_dom. unfold init.
      rewrite dom_list_to_map_L, <- list_fmap_compose, list_fmap_id.
      apply elem_of_list_to_set. by eapply list_elem_of_lookup_2. }
    destruct Hs as [col Hcol]. rewrite Hcol. f_equal.
    apply elem_of_list_to_map_2 in Hcol.
    by apply list_elem_of_fmap in Hcol as (? & [= _ ->] & _). }
  rewrite (pad_columns_rectangular _ _
             (length (filter (λ line, skip_line (line_parts U line) = false)
                        lines))).
  - rewrite (process_lines_lookup _ Hnd _ _ j h Hj), (Hinit j h Hj). done.
  - intros h' col' Hcol'.
    assert (Hin : h' ∈ headers).
    { assert (Hd : h' ∈ dom (foldl (process_line U headers) init lines))
        by (apply elem_of_dom; eauto).
      rewrite dom_process_lines in Hd. unfold init in Hd.
      rewrite dom_list_to_map_L, <- list_fmap_compose, list_fmap_id in Hd.
      by apply elem_of_list_to_set in Hd. }
    apply list_elem_of_lookup_1 in Hin as [k Hk].
    rewrite (process_lines_lookup _ Hnd _ _ k h' Hk), (Hinit k h' Hk) in Hcol'.
    injection Hcol' as <-. simpl. by rewrite length_fmap.
Qed.
End ClosedForm.

Lemma parse_table_to_columns_closed_form_witness :
  parse_table_to_columns ucd [] (normalize_text ucd scenario_text)
    potencia_headers potencia_start_rx (Some potencia_end_rx) !! lit "P1"
  = (λ lines : list str,
       (λ line, cell_of ucd (line_parts ucd line) 2) <$>
       filter (λ line, skip_line (line_parts ucd line) = false) lines)
    <$> data_lines ucd (normalize_text ucd scenario_text) potencia_headers
          potencia_start_rx (Some potencia_end_rx).
Proof.
  apply (parse_table_to_columns_closed_form ucd [] _ potencia_headers
           potencia_start_rx (Some potencia_end_rx) 2 (lit "P1")).
  - apply (bool_decide_unpack _). vm_compute. exact I.
  - reflexivity.
Defined.

Lemma allowed_file_spec_witness : allowed_file ucd (lit "Factura.Enero.PDF") = true.
Proof.
  apply (allowed_file_spec ucd (lit "Factura.Enero.PDF")).
  exists (lit "Factura.Enero"), (lit "PDF").
  split; [reflexivity|]. split; [vm_compute; set_solver|left; vm_compute; reflexivity].
Defined.
